(** * WEBCOSMIC planet viewer: the model-swap lifecycle

    A shallow embedding of [src/components/PlanetViewer.jsx] (the component
    with the load-identifier guard), of the component variant without the
    guard and of the vanilla script, together with the parts of three.js the
    code calls: vectors, TRS matrices, bounding boxes and the scene graph.

    JavaScript numbers are IEEE doubles.  Coordinates are modelled by exact
    rationals ([Q], compared with [==]); "within floating-point tolerance"
    in the specification becomes exact equality here.  The models used as
    concrete inputs have dyadic coordinates, on which the double computation
    of [centerAndFit] is exact as well. *)

From Stdlib Require Import QArith Qminmax Lqa.
From Stdlib Require Import List Bool Arith Lia String.
Import ListNotations.

Set Warnings "-register-all".

Local Open Scope Q_scope.

(** ** three.js: Vector3 *)

Module Vector3.

Record t : Type := make { x : Q; y : Q; z : Q }.

Definition zero : t := make 0 0 0.

(** [v.sub(w)] *)
Definition sub (v w : t) : t := make (x v - x w) (y v - y w) (z v - z w).

(** [target.subVectors(a, b)] *)
Definition subVectors (a b : t) : t := sub a b.

(** [target.addVectors(a, b)] *)
Definition addVectors (a b : t) : t := make (x a + x b) (y a + y b) (z a + z b).

(** [v.multiplyScalar(s)] *)
Definition multiplyScalar (v : t) (s : Q) : t := make (x v * s) (y v * s) (z v * s).

(** [v.setScalar(s)] *)
Definition setScalar (s : Q) : t := make s s s.

(** [v.min(w)], [v.max(w)]: componentwise *)
Definition min (v w : t) : t := make (Qmin (x v) (x w)) (Qmin (y v) (y w)) (Qmin (z v) (z w)).
Definition max (v w : t) : t := make (Qmax (x v) (x w)) (Qmax (y v) (y w)) (Qmax (z v) (z w)).

(** Equality of vectors up to [==] on the coordinates. *)
Definition eq (v w : t) : Prop := x v == x w /\ y v == y w /\ z v == z w.

Definition eqb (v w : t) : bool :=
    Qeq_bool (x v) (x w) && Qeq_bool (y v) (y w) && Qeq_bool (z v) (z w).

End Vector3.

Definition Vec3 : Type := Vector3.t.
Infix "=v=" := Vector3.eq (at level 70, no associativity).

(** ** three.js: Quaternion and Matrix4

    [Matrix4] stores sixteen elements.  Every matrix the viewer builds comes
    from [compose] or from a product of such matrices, so its last row is
    (0, 0, 0, 1) and the divide by [w] in [Vector3.applyMatrix4] is a divide
    by one: the embedding keeps the twelve affine elements, named [nRC] for
    row R and column C as in [Matrix4.set]. *)

Record Quaternion : Type := mkQuaternion { qx : Q; qy : Q; qz : Q; qw : Q }.

Definition identityQuaternion : Quaternion := mkQuaternion 0 0 0 1.

Module Matrix4.

Record t : Type := make {
    n11 : Q; n12 : Q; n13 : Q; n14 : Q;
    n21 : Q; n22 : Q; n23 : Q; n24 : Q;
    n31 : Q; n32 : Q; n33 : Q; n34 : Q }.

(** [m.compose(position, quaternion, scale)] *)
Definition compose (p : Vec3) (q : Quaternion) (s : Vec3) : t :=
    let x := qx q in let y := qy q in let z := qz q in let w := qw q in
    let x2 := x + x in let y2 := y + y in let z2 := z + z in
    let xx := x * x2 in let xy := x * y2 in let xz := x * z2 in
    let yy := y * y2 in let yz := y * z2 in let zz := z * z2 in
    let wx := w * x2 in let wy := w * y2 in let wz := w * z2 in
    let sx := Vector3.x s in let sy := Vector3.y s in let sz := Vector3.z s in
    make ((1 - (yy + zz)) * sx) ((xy - wz) * sy) ((xz + wy) * sz) (Vector3.x p)
         ((xy + wz) * sx) ((1 - (xx + zz)) * sy) ((yz - wx) * sz) (Vector3.y p)
         ((xz - wy) * sx) ((yz + wx) * sy) ((1 - (xx + yy)) * sz) (Vector3.z p).

(** [m.multiplyMatrices(a, b)] on the affine part *)
Definition multiplyMatrices (a b : t) : t :=
    make (n11 a * n11 b + n12 a * n21 b + n13 a * n31 b)
         (n11 a * n12 b + n12 a * n22 b + n13 a * n32 b)
         (n11 a * n13 b + n12 a * n23 b + n13 a * n33 b)
         (n11 a * n14 b + n12 a * n24 b + n13 a * n34 b + n14 a)
         (n21 a * n11 b + n22 a * n21 b + n23 a * n31 b)
         (n21 a * n12 b + n22 a * n22 b + n23 a * n32 b)
         (n21 a * n13 b + n22 a * n23 b + n23 a * n33 b)
         (n21 a * n14 b + n22 a * n24 b + n23 a * n34 b + n24 a)
         (n31 a * n11 b + n32 a * n21 b + n33 a * n31 b)
         (n31 a * n12 b + n32 a * n22 b + n33 a * n32 b)
         (n31 a * n13 b + n32 a * n23 b + n33 a * n33 b)
         (n31 a * n14 b + n32 a * n24 b + n33 a * n34 b + n34 a).

(** [v.applyMatrix4(m)] for an affine [m] *)
Definition apply (m : t) (v : Vec3) : Vec3 :=
    let x := Vector3.x v in let y := Vector3.y v in let z := Vector3.z v in
    Vector3.make (n11 m * x + n12 m * y + n13 m * z + n14 m)
                 (n21 m * x + n22 m * y + n23 m * z + n24 m)
                 (n31 m * x + n32 m * y + n33 m * z + n34 m).

End Matrix4.

(** ** three.js: Box3

    [new Box3()] is the empty box (min = +Infinity, max = -Infinity), here
    [None]; a box that has received at least one point is [Some (min, max)]. *)

Module Box3.

Definition t : Type := option (Vec3 * Vec3).

Definition makeEmpty : t := None.

(** [box.expandByPoint(p)] *)
Definition expandByPoint (b : t) (p : Vec3) : t :=
    match b with
    | None => Some (p, p)
    | Some (lo, hi) => Some (Vector3.min lo p, Vector3.max hi p)
    end.

(** [box.setFromPoints(points)] *)
Definition setFromPoints (points : list Vec3) : t :=
    fold_left expandByPoint points makeEmpty.

(** [box.union(other)] *)
Definition union (b other : t) : t :=
    match b, other with
    | None, _ => other
    | _, None => b
    | Some (lo, hi), Some (lo', hi') => Some (Vector3.min lo lo', Vector3.max hi hi')
    end.

(** The eight corners in the order [Box3.applyMatrix4] visits them. *)
Definition corners (lo hi : Vec3) : list Vec3 :=
    let mk := Vector3.make in
    [ mk (Vector3.x lo) (Vector3.y lo) (Vector3.z lo);
      mk (Vector3.x lo) (Vector3.y lo) (Vector3.z hi);
      mk (Vector3.x lo) (Vector3.y hi) (Vector3.z lo);
      mk (Vector3.x lo) (Vector3.y hi) (Vector3.z hi);
      mk (Vector3.x hi) (Vector3.y lo) (Vector3.z lo);
      mk (Vector3.x hi) (Vector3.y lo) (Vector3.z hi);
      mk (Vector3.x hi) (Vector3.y hi) (Vector3.z lo);
      mk (Vector3.x hi) (Vector3.y hi) (Vector3.z hi) ].

(** [box.applyMatrix4(m)]: an empty box is returned unchanged. *)
Definition applyMatrix4 (b : t) (m : Matrix4.t) : t :=
    match b with
    | None => None
    | Some (lo, hi) => setFromPoints (map (Matrix4.apply m) (corners lo hi))
    end.

(** [box.getSize(target)] *)
Definition getSize (b : t) : Vec3 :=
    match b with
    | None => Vector3.zero
    | Some (lo, hi) => Vector3.subVectors hi lo
    end.

(** [box.getCenter(target)] *)
Definition getCenter (b : t) : Vec3 :=
    match b with
    | None => Vector3.zero
    | Some (lo, hi) => Vector3.multiplyScalar (Vector3.addVectors lo hi) 0.5
    end.

End Box3.

(** ** three.js: geometries, textures, materials and Object3D

    JavaScript objects have identity: two meshes may hold the same material,
    two materials the same texture.  Objects parsed by the loader carry the
    identifier [Parsed n]; objects the viewer itself creates with [new] get
    [Created n] from the viewer's allocation counter. *)

Inductive ObjId : Type :=
| Parsed (n : nat)
| Created (n : nat).

Inductive ColorSpace : Type := NoColorSpace | LinearSRGBColorSpace | SRGBColorSpace.

Record Texture : Type := mkTexture {
  tex_id : ObjId;
  colorSpace : ColorSpace;
  needsUpdate : bool }.

(** What the property [map] of a material can hold.  A parsed material has a
    texture or [null].  [MapArrayMethod] is the function [Array.prototype.map]:
    the expression [child.material?.map] of the material replacement evaluates
    to it when [child.material] is an array, and the replacement stores it in
    the new material. *)
Inductive MapValue : Type :=
| MapNull
| MapTexture (t : Texture)
| MapArrayMethod.

Record Material : Type := mkMaterial {
  mat_id : ObjId;
  isMeshStandardMaterial : bool;
  map : MapValue;
  roughness : Q;
  metalness : Q;
  emissive : N }.

(** The property [material] of an object: absent ([null] or [undefined]), one
    material, or an array whose entries may themselves be absent. *)
Inductive MaterialSlot : Type :=
| NoMaterial
| OneMaterial (m : Material)
| MaterialArray (ms : list (option Material)).

(** A [BufferGeometry] with the points of its position attribute. *)
Record BufferGeometry : Type := mkGeometry {
  geo_id : ObjId;
  vertices : list Vec3 }.

(** [geometry.computeBoundingBox()] *)
Definition computeBoundingBox (g : BufferGeometry) : Box3.t :=
  Box3.setFromPoints (vertices g).

(** An [Object3D] with the properties the viewer reads or writes.  [rotation]
    holds the Euler angles and [quaternion] the orientation that
    [updateMatrix] composes into the local matrix. *)
Inductive Object3D : Type := mkObject3D {
  isMesh : bool;
  position : Vec3;
  rotation : Vec3;
  quaternion : Quaternion;
  scale : Vec3;
  geometry : option BufferGeometry;
  material : MaterialSlot;
  children : list Object3D }.

(** Induction over the scene graph, with the hypothesis on every child. *)
Fixpoint Object3D_tree_ind (P : Object3D -> Prop)
  (step : forall m p r q s g mt cs, Forall P cs -> P (mkObject3D m p r q s g mt cs))
  (o : Object3D) : P o :=
  match o with
  | mkObject3D m p r q s g mt cs =>
      step m p r q s g mt cs
        ((fix all (l : list Object3D) : Forall P l :=
            match l with
            | [] => Forall_nil P
            | c :: l' => Forall_cons c (Object3D_tree_ind P step c) (all l')
            end) cs)
  end.

(** The objects [object.traverse] visits, in visiting order: the object, then
    each child's subtree. *)
Fixpoint nodes (o : Object3D) : list Object3D :=
  o :: flat_map nodes (children o).

(** [new THREE.Group()]: identity transform, no geometry, no material. *)
Definition Group (cs : list Object3D) : Object3D :=
  mkObject3D false Vector3.zero Vector3.zero identityQuaternion
             (Vector3.setScalar 1) None NoMaterial cs.

(** [new THREE.Mesh(geometry, material)] with an identity transform. *)
Definition Mesh (g : BufferGeometry) (m : MaterialSlot) : Object3D :=
  mkObject3D true Vector3.zero Vector3.zero identityQuaternion
             (Vector3.setScalar 1) (Some g) m [].

(** ** Box3.setFromObject

    [expandByObject] refreshes the world matrix of the object from its parent's
    and unions the transformed bounding box of its geometry, then recurses into
    the children.  [parent] is [None] for an object without parent, whose world
    matrix is its local matrix. *)

Definition updateWorldMatrix (parent : option Matrix4.t) (o : Object3D) : Matrix4.t :=
  let local := Matrix4.compose (position o) (quaternion o) (scale o) in
  match parent with
  | None => local
  | Some p => Matrix4.multiplyMatrices p local
  end.

Fixpoint expandByObject (parent : option Matrix4.t) (box : Box3.t) (o : Object3D)
  {struct o} : Box3.t :=
  let world := updateWorldMatrix parent o in
  let box1 :=
    match geometry o with
    | Some g => Box3.union box (Box3.applyMatrix4 (computeBoundingBox g) world)
    | None => box
    end in
  fold_left (expandByObject (Some world)) (children o) box1.

(** [new THREE.Box3().setFromObject(object)] for an object without parent, as
    [gltf.scene] is when the success callback runs. *)
Definition setFromObject (o : Object3D) : Box3.t :=
  expandByObject None Box3.makeEmpty o.

(** ** centerAndFit (PlanetViewer.jsx 136-146) *)

Definition targetSize : Q := 1.5.

Definition maxDimOf (size : Vec3) : Q :=
  Qmax (Qmax (Vector3.x size) (Vector3.y size)) (Vector3.z size).

Definition fitScale (maxDim : Q) : Q :=
  if Qlt_le_dec 0 maxDim then targetSize / maxDim else 1.

Definition set_position_scale (o : Object3D) (p s : Vec3) : Object3D :=
  mkObject3D (isMesh o) p (rotation o) (quaternion o) s
             (geometry o) (material o) (children o).

Definition centerAndFit (object : Object3D) : Object3D :=
  let box := setFromObject object in
  let size := Box3.getSize box in
  let center := Box3.getCenter box in
  let position' := Vector3.sub (position object) center in
  let maxDim := maxDimOf size in
  let scale' := Vector3.setScalar (fitScale maxDim) in
  set_position_scale object position' scale'.

(** ** Releasing resources

    Every call of [dispose()] on a geometry, a material or a texture is
    recorded, in order, as the resource it was called on.  A callback either
    completes or throws a [TypeError]; what was released before the throw
    stays released. *)

Inductive Resource : Type :=
| GeometryRes (id : ObjId)
| MaterialRes (id : ObjId)
| TextureRes (id : ObjId).

Inductive Outcome : Type := Completed | TypeError.

Definition Trace : Type := (list Resource * Outcome)%type.

Definition done : Trace := ([], Completed).
Definition release (r : Resource) : Trace := ([r], Completed).
Definition throw : Trace := ([], TypeError).

(** Sequencing of two statements: the second runs only if the first completes. *)
Definition andThen (a b : Trace) : Trace :=
  match snd a with
  | Completed => (fst a ++ fst b, snd b)
  | TypeError => a
  end.

Notation "a ;; b" := (andThen a b) (at level 61, right associativity).

(** [array.forEach(f)] *)
Definition forEach {A : Type} (f : A -> Trace) (l : list A) : Trace :=
  fold_right (fun a k => f a ;; k) done l.

(** [object.traverse(callback)]: the callback on the object, then on every
    child's subtree. *)
Fixpoint traverse (callback : Object3D -> Trace) (o : Object3D) : Trace :=
  callback o ;; forEach (traverse callback) (children o).

(** [Array.isArray(child.material) ? child.material : [child.material]] *)
Definition materialList (slot : MaterialSlot) : list (option Material) :=
  match slot with
  | NoMaterial => [None]
  | OneMaterial m => [Some m]
  | MaterialArray ms => ms
  end.

(** [if (m.map) m.map.dispose()]: a texture is released; the function
    [Array.prototype.map] is truthy and has no [dispose], so the call throws. *)
Definition disposeMap (v : MapValue) : Trace :=
  match v with
  | MapNull => done
  | MapTexture t => release (TextureRes (tex_id t))
  | MapArrayMethod => throw
  end.

(** The body of [mats.forEach((m) => ...)] in [disposeObject3D]. *)
Definition disposeMaterial (m : option Material) : Trace :=
  match m with
  | None => done
  | Some m => disposeMap (map m) ;; release (MaterialRes (mat_id m))
  end.

Definition disposeGeometry (g : option BufferGeometry) : Trace :=
  match g with
  | Some g => release (GeometryRes (geo_id g))
  | None => done
  end.

(** The callback of [obj.traverse] in [disposeObject3D]. *)
Definition disposeChild (child : Object3D) : Trace :=
  if isMesh child
  then disposeGeometry (geometry child) ;;
       forEach disposeMaterial (materialList (material child))
  else done.

(** [disposeObject3D] (PlanetViewer.jsx 119-133) *)
Definition disposeObject3D (obj : Object3D) : Trace :=
  traverse disposeChild obj.

(** The inline disposal of the vanilla script (its [window.loadPlanet]): any
    object with a geometry releases it, materials are released without their
    maps, and an absent entry of a material array throws. *)
Module Vanilla.

Definition disposeEntry (m : option Material) : Trace :=
  match m with
  | None => throw
  | Some m => release (MaterialRes (mat_id m))
  end.

Definition disposeChild (child : Object3D) : Trace :=
  disposeGeometry (geometry child) ;;
  match material child with
  | NoMaterial => done
  | OneMaterial m => release (MaterialRes (mat_id m))
  | MaterialArray ms => forEach disposeEntry ms
  end.

Definition dispose (obj : Object3D) : Trace :=
  traverse disposeChild obj.

End Vanilla.

(** ** Material replacement (PlanetViewer.jsx 176-190) *)

(** [child.material?.map || null] *)
Definition keptMap (slot : MaterialSlot) : MapValue :=
  match slot with
  | NoMaterial => MapNull
  | OneMaterial m => map m
  | MaterialArray _ => MapArrayMethod
  end.

(** [if (map) { map.colorSpace = THREE.SRGBColorSpace; map.needsUpdate = true }].
    On the function [Array.prototype.map] the two assignments only add
    properties to the function object. *)
Definition markSRGB (v : MapValue) : MapValue :=
  match v with
  | MapTexture t => MapTexture (mkTexture (tex_id t) SRGBColorSpace true)
  | other => other
  end.

(** [new THREE.MeshStandardMaterial({ map, roughness: 0.7, metalness: 0.1,
    emissive: new THREE.Color(0x000000) })], allocated as object [Created n]. *)
Definition standardMaterial (n : nat) (v : MapValue) : Material :=
  mkMaterial (Created n) true v 0.7 0.1 N0.

Definition set_material_children (o : Object3D) (m : MaterialSlot)
  (cs : list Object3D) : Object3D :=
  mkObject3D (isMesh o) (position o) (rotation o) (quaternion o) (scale o)
             (geometry o) m cs.

(** The new material slot of one visited object and the next free identifier. *)
Definition replaceChild (n : nat) (child : Object3D) : MaterialSlot * nat :=
  if isMesh child
  then (OneMaterial (standardMaterial n (markSRGB (keptMap (material child)))), S n)
  else (material child, n).

(** [planet.traverse((child) => { if (child.isMesh) { ... } })]: the allocation
    counter is threaded through the visit. *)
Fixpoint replaceMaterials (n : nat) (o : Object3D) {struct o} : Object3D * nat :=
  let (m', n1) := replaceChild n o in
  let (cs', n2) :=
    (fix visit (l : list Object3D) (k : nat) {struct l} : list Object3D * nat :=
       match l with
       | [] => ([], k)
       | c :: l' =>
           let (c', k1) := replaceMaterials k c in
           let (l'', k2) := visit l' k1 in
           (c' :: l'', k2)
       end) (children o) n1 in
  (set_material_children o m' cs', n2).

(** ** The scene and the store of loaded roots

    A loaded root ([gltf.scene]) is one JavaScript object that both the scene
    and [planetRef.current] may point to.  Each call of [loader.load] yields at
    most one such object, so a root is addressed by the handle of the request
    that produced it; [heap] maps the address to the object's current value.
    Addresses nothing was stored at hold an empty group. *)

Inductive SceneChild : Type :=
| DirectionalLight
| AmbientLight
| Planet (root : nat).

Definition SceneChild_eqb (a b : SceneChild) : bool :=
  match a, b with
  | DirectionalLight, DirectionalLight => true
  | AmbientLight, AmbientLight => true
  | Planet r, Planet r' => Nat.eqb r r'
  | _, _ => false
  end.

(** [scene.remove(object)]: the first (and only) occurrence is spliced out. *)
Fixpoint sceneRemove (c : SceneChild) (cs : list SceneChild) : list SceneChild :=
  match cs with
  | [] => []
  | c' :: cs' => if SceneChild_eqb c c' then cs' else c' :: sceneRemove c cs'
  end.

(** [scene.add(object)]: the object leaves its parent, if any, and is pushed. *)
Definition sceneAdd (c : SceneChild) (cs : list SceneChild) : list SceneChild :=
  sceneRemove c cs ++ [c].

(** The roots attached to the scene. *)
Fixpoint attachedPlanets (cs : list SceneChild) : list nat :=
  match cs with
  | [] => []
  | Planet r :: cs' => r :: attachedPlanets cs'
  | _ :: cs' => attachedPlanets cs'
  end.

Definition Heap : Type := nat -> Object3D.

Definition emptyHeap : Heap := fun _ => Group [].

Definition heapStore (h : Heap) (r : nat) (o : Object3D) : Heap :=
  fun k => if Nat.eqb k r then o else h k.

(** A load handed to [loader.load] whose callbacks have not run yet: the
    handle the loader knows it by, the [loadId] its callbacks captured and the
    file. *)
Record Request : Type := mkRequest {
  handle : nat;
  loadId : nat;
  file : string }.

Fixpoint findRequest (h : nat) (l : list Request) : option Request :=
  match l with
  | [] => None
  | r :: l' => if Nat.eqb (handle r) h then Some r else findRequest h l'
  end.

Fixpoint dropRequest (h : nat) (l : list Request) : list Request :=
  match l with
  | [] => []
  | r :: l' => if Nat.eqb (handle r) h then l' else r :: dropRequest h l'
  end.

(** The catalog of PlanetViewer.jsx. *)
Definition PLANETS : list (string * string) :=
  [ ("Earth", "/models/earth.glb"); ("Moon", "/models/moon.glb");
    ("Mars", "/models/mars.glb"); ("Venus", "/models/venus.glb");
    ("Saturn", "/models/saturn.glb"); ("Jupiter", "/models/jupiter.glb");
    ("Sun", "/models/sun.glb") ]%string.

(** ** The viewer state of PlanetViewer.jsx

    [currentLoadId] is the counter of the [loadPlanet] closure the mount effect
    registered with the menu buttons; JavaScript counts it exactly far beyond
    any number of clicks, and it is a natural number here. *)

Record Viewer : Type := mkViewer {
  initialized : bool;                    (* initializedRef.current *)
  sceneRef : option (list SceneChild);   (* children of sceneRef.current *)
  planetRef : option nat;                (* planetRef.current *)
  loading : bool;                        (* the state set by setLoading *)
  currentLoadId : nat;
  heap : Heap;
  allocated : nat;                       (* objects created with new so far *)
  issued : nat;                          (* calls of loader.load so far *)
  pending : list Request;
  released : list Resource;              (* dispose() calls, oldest first *)
  console : list string;                 (* console.error, oldest first *)
  aspect : option Q;                     (* camera.aspect, None if not finite *)
  rendererSize : Q * Q;
  frames : nat;                          (* controls.update + renderer.render *)
  resizeListening : bool;
  canvasMounted : bool }.

Definition initialViewer : Viewer :=
  mkViewer false None None false 0 emptyHeap 0 0 [] [] [] None (0, 0) 0 false false.

Definition set_sceneRef (v : option (list SceneChild)) (s : Viewer) : Viewer :=
  mkViewer (initialized s) v (planetRef s) (loading s) (currentLoadId s) (heap s)
    (allocated s) (issued s) (pending s) (released s) (console s) (aspect s)
    (rendererSize s) (frames s) (resizeListening s) (canvasMounted s).

Definition set_planetRef (v : option nat) (s : Viewer) : Viewer :=
  mkViewer (initialized s) (sceneRef s) v (loading s) (currentLoadId s) (heap s)
    (allocated s) (issued s) (pending s) (released s) (console s) (aspect s)
    (rendererSize s) (frames s) (resizeListening s) (canvasMounted s).

Definition setLoading (v : bool) (s : Viewer) : Viewer :=
  mkViewer (initialized s) (sceneRef s) (planetRef s) v (currentLoadId s) (heap s)
    (allocated s) (issued s) (pending s) (released s) (console s) (aspect s)
    (rendererSize s) (frames s) (resizeListening s) (canvasMounted s).

Definition set_currentLoadId (v : nat) (s : Viewer) : Viewer :=
  mkViewer (initialized s) (sceneRef s) (planetRef s) (loading s) v (heap s)
    (allocated s) (issued s) (pending s) (released s) (console s) (aspect s)
    (rendererSize s) (frames s) (resizeListening s) (canvasMounted s).

Definition set_heap (v : Heap) (s : Viewer) : Viewer :=
  mkViewer (initialized s) (sceneRef s) (planetRef s) (loading s) (currentLoadId s) v
    (allocated s) (issued s) (pending s) (released s) (console s) (aspect s)
    (rendererSize s) (frames s) (resizeListening s) (canvasMounted s).

Definition set_allocated (v : nat) (s : Viewer) : Viewer :=
  mkViewer (initialized s) (sceneRef s) (planetRef s) (loading s) (currentLoadId s)
    (heap s) v (issued s) (pending s) (released s) (console s) (aspect s)
    (rendererSize s) (frames s) (resizeListening s) (canvasMounted s).

Definition set_loads (n : nat) (v : list Request) (s : Viewer) : Viewer :=
  mkViewer (initialized s) (sceneRef s) (planetRef s) (loading s) (currentLoadId s)
    (heap s) (allocated s) n v (released s) (console s) (aspect s)
    (rendererSize s) (frames s) (resizeListening s) (canvasMounted s).

Definition set_released (v : list Resource) (s : Viewer) : Viewer :=
  mkViewer (initialized s) (sceneRef s) (planetRef s) (loading s) (currentLoadId s)
    (heap s) (allocated s) (issued s) (pending s) v (console s) (aspect s)
    (rendererSize s) (frames s) (resizeListening s) (canvasMounted s).

Definition set_console (v : list string) (s : Viewer) : Viewer :=
  mkViewer (initialized s) (sceneRef s) (planetRef s) (loading s) (currentLoadId s)
    (heap s) (allocated s) (issued s) (pending s) (released s) v (aspect s)
    (rendererSize s) (frames s) (resizeListening s) (canvasMounted s).

Definition set_surface (a : option Q) (size : Q * Q) (s : Viewer) : Viewer :=
  mkViewer (initialized s) (sceneRef s) (planetRef s) (loading s) (currentLoadId s)
    (heap s) (allocated s) (issued s) (pending s) (released s) (console s) a
    size (frames s) (resizeListening s) (canvasMounted s).

Definition set_frames (v : nat) (s : Viewer) : Viewer :=
  mkViewer (initialized s) (sceneRef s) (planetRef s) (loading s) (currentLoadId s)
    (heap s) (allocated s) (issued s) (pending s) (released s) (console s) (aspect s)
    (rendererSize s) v (resizeListening s) (canvasMounted s).

Definition set_host (init listening canvas : bool) (s : Viewer) : Viewer :=
  mkViewer init (sceneRef s) (planetRef s) (loading s) (currentLoadId s)
    (heap s) (allocated s) (issued s) (pending s) (released s) (console s) (aspect s)
    (rendererSize s) (frames s) listening canvas.

(** [clientWidth / clientHeight]; a zero height gives a non-finite double. *)
Definition aspectOf (w h : Q) : option Q :=
  if Qeq_bool h 0 then None else Some (w / h).

(** ** The operations of the viewer *)

Inductive Event : Type :=
| Mount (width height : Q)            (* the mount effect, container present *)
| Unmount                             (* the cleanup the effect returned *)
| RequestLoad (path : string)         (* a menu click: loadPlanet(match.file) *)
| LoadSuccess (h : nat) (gltfScene : Object3D)
| LoadFailure (h : nat) (err : string)
| Frame                               (* requestAnimationFrame fires *)
| Resize (container : option (Q * Q)) (* window resize; mountRef.current *).

Section ViewerOperations.

(** [Quaternion.setFromEuler], which three.js runs whenever an Euler angle of
    [rotation] is assigned; it is trigonometric and stays a parameter. *)
Variable setFromEuler : Vec3 -> Quaternion.

(** [object.rotation.y += dy] *)
Definition rotateY (dy : Q) (o : Object3D) : Object3D :=
  let r := Vector3.make (Vector3.x (rotation o)) (Vector3.y (rotation o) + dy)
                        (Vector3.z (rotation o)) in
  mkObject3D (isMesh o) (position o) r (setFromEuler r) (scale o)
             (geometry o) (material o) (children o).

(** [animate] (PlanetViewer.jsx 68-73) with angular increment [dy] *)
Definition animateBy (dy : Q) (s : Viewer) : Viewer :=
  let s1 :=
    match planetRef s with
    | Some r => set_heap (heapStore (heap s) r (rotateY dy (heap s r))) s
    | None => s
    end in
  set_frames (S (frames s1)) s1.

Definition animate : Viewer -> Viewer := animateBy 0.001.

(** [handleResize] (PlanetViewer.jsx 77-86) *)
Definition handleResize (container : option (Q * Q)) (s : Viewer) : Viewer :=
  match container with
  | None => s
  | Some (w, h) => set_surface (aspectOf w h) (w, h) s
  end.

(** [loader.load(file, onLoad, undefined, onError)]: the request is pending
    until one of its callbacks runs. *)
Definition issueLoad (path : string) (id : nat) (s : Viewer) : Viewer :=
  set_loads (S (issued s)) (pending s ++ [mkRequest (issued s) id path]) s.

(** "Remove previous planet" (PlanetViewer.jsx 159-163), then [continue].  A
    throw inside [disposeObject3D] leaves the rest of the caller unexecuted. *)
Definition removePrevious (continue : Viewer -> Viewer) (s : Viewer) : Viewer :=
  match planetRef s with
  | None => continue s
  | Some r =>
      let s1 := set_sceneRef (option_map (sceneRemove (Planet r)) (sceneRef s)) s in
      let (log, outcome) := disposeObject3D (heap s1 r) in
      let s2 := set_released (released s1 ++ log) s1 in
      match outcome with
      | TypeError => s2
      | Completed => continue (set_planetRef None s2)
      end
  end.

(** [loadPlanet] (PlanetViewer.jsx 152-203), up to the return of
    [loader.load]. *)
Definition loadPlanet (path : string) (s : Viewer) : Viewer :=
  match sceneRef s with
  | None => s
  | Some _ =>
      let s1 := setLoading true s in
      let id := S (currentLoadId s1) in
      let s2 := set_currentLoadId id s1 in
      removePrevious (issueLoad path id) s2
  end.

(** Normalization and attachment in the success callback
    (PlanetViewer.jsx 174-195). *)
Definition attach (root : nat) (planet : Object3D) (s : Viewer) : Viewer :=
  match sceneRef s with
  | None => s
  | Some cs =>
      let s1 := set_sceneRef (Some (sceneAdd (Planet root) cs)) s in
      let s2 := set_heap (heapStore (heap s1) root planet) s1 in
      set_planetRef (Some root) s2
  end.

Definition normalize (n : nat) (gltfScene : Object3D) : Object3D * nat :=
  let (planet, n') := replaceMaterials n gltfScene in
  (centerAndFit planet, n').

(** The success callback (PlanetViewer.jsx 167-196) of request [req]. *)
Definition onLoad (req : Request) (gltfScene : Object3D) (s : Viewer) : Viewer :=
  if negb (Nat.eqb (loadId req) (currentLoadId s))
  then set_released (released s ++ fst (disposeObject3D gltfScene)) s
  else
    let (planet, n') := normalize (allocated s) gltfScene in
    let s1 := set_allocated n' s in
    match sceneRef s1 with
    | None => s1
    | Some _ => setLoading false (attach (handle req) planet s1)
    end.

(** The failure callback (PlanetViewer.jsx 198-201) of request [req]. *)
Definition onError (req : Request) (err : string) (s : Viewer) : Viewer :=
  let s1 := if Nat.eqb (loadId req) (currentLoadId s) then setLoading false s else s in
  set_console (console s1 ++ [String.append "GLB load error: " err]) s1.

(** The loader runs exactly one callback of a pending request. *)
Definition resolve (h : nat) (callback : Request -> Viewer -> Viewer) (s : Viewer)
  : Viewer :=
  match findRequest h (pending s) with
  | None => s
  | Some req => callback req (set_loads (issued s) (dropRequest h (pending s)) s)
  end.

(** The mount effect (PlanetViewer.jsx 29-102): scene with its two lights,
    camera, renderer, listeners, and the first call of [animate]. *)
Definition mount (w h : Q) (s : Viewer) : Viewer :=
  if initialized s then s
  else
    let s1 := set_host true true true s in
    let s2 := set_sceneRef (Some [DirectionalLight; AmbientLight]) s1 in
    let s3 := set_surface (aspectOf w h) (w, h) s2 in
    animate s3.

(** The cleanup (PlanetViewer.jsx 105-114).  The resize listener and the
    canvas go; [removeEventListener("click", () => {})] removes no listener
    and the animation loop is not cancelled. *)
Definition cleanup (s : Viewer) : Viewer :=
  if resizeListening s then
    let s1 := set_host (initialized s) false false s in
    match planetRef s1 with
    | None => s1
    | Some r => set_released (released s1 ++ fst (disposeObject3D (heap s1 r))) s1
    end
  else s.

Definition step (s : Viewer) (e : Event) : Viewer :=
  match e with
  | Mount w h => mount w h s
  | Unmount => cleanup s
  | RequestLoad path => loadPlanet path s
  | LoadSuccess h gltfScene => resolve h (fun req => onLoad req gltfScene) s
  | LoadFailure h err => resolve h (fun req => onError req err) s
  | Frame => if initialized s then animate s else s
  | Resize container => if resizeListening s then handleResize container s else s
  end.

Definition run (s : Viewer) (es : list Event) : Viewer := fold_left step es s.

End ViewerOperations.

(** ** What the loader delivers

    GLTFLoader gives every object it parses one material or none, and a
    material's [map] is a texture or [null]. *)

Definition parsedMap (v : MapValue) : bool :=
  match v with
  | MapArrayMethod => false
  | _ => true
  end.

Definition parsedNode (o : Object3D) : bool :=
  match material o with
  | NoMaterial => true
  | OneMaterial m => parsedMap (map m)
  | MaterialArray _ => false
  end.

Definition parsedScene (o : Object3D) : bool := forallb parsedNode (nodes o).

Definition admissible (e : Event) : Prop :=
  match e with
  | LoadSuccess _ gltfScene => parsedScene gltfScene = true
  | _ => True
  end.

(** The states of the viewer: those some sequence of events leads to. *)
Inductive reachable (setFromEuler : Vec3 -> Quaternion) : Viewer -> Prop :=
| reachable_initial : reachable setFromEuler initialViewer
| reachable_step : forall s e,
    reachable setFromEuler s ->
    reachable setFromEuler (step setFromEuler s e).

(** The states reached when every load result is as GLTFLoader parses it. *)
Inductive reachableParsed (setFromEuler : Vec3 -> Quaternion) : Viewer -> Prop :=
| parsed_initial : reachableParsed setFromEuler initialViewer
| parsed_step : forall s e,
    reachableParsed setFromEuler s -> admissible e ->
    reachableParsed setFromEuler (step setFromEuler s e).

(** The roots the scene shows: none before the mount. *)
Definition attached (s : Viewer) : list nat :=
  match sceneRef s with
  | None => []
  | Some cs => attachedPlanets cs
  end.

Definition displayed (s : Viewer) : list nat :=
  match planetRef s with
  | None => []
  | Some r => [r]
  end.

(** ** What disposal releases *)

Definition Resource_eq_dec : forall a b : Resource, {a = b} + {a <> b}.
Proof. repeat decide equality. Defined.

(** How many times [dispose()] was called on [r]. *)
Definition timesReleased (r : Resource) (log : list Resource) : nat :=
  count_occ Resource_eq_dec log r.

(** The resources a mesh points to: its geometry, and for each entry of its
    material slot the texture map, if any, and the material.  A resource that
    several meshes or slots point to is listed once per reference. *)
Definition materialReferences (m : option Material) : list Resource :=
  match m with
  | None => []
  | Some m =>
      match map m with
      | MapTexture t => [TextureRes (tex_id t); MaterialRes (mat_id m)]
      | _ => [MaterialRes (mat_id m)]
      end
  end.

Definition meshReferences (o : Object3D) : list Resource :=
  if isMesh o
  then match geometry o with
       | Some g => [GeometryRes (geo_id g)]
       | None => []
       end ++ flat_map materialReferences (materialList (material o))
  else [].

Definition references (obj : Object3D) : list Resource :=
  flat_map meshReferences (nodes obj).

(** No material of a mesh holds the function [Array.prototype.map] as its
    map. *)
Definition plainMaterial (m : option Material) : bool :=
  match m with
  | None => true
  | Some m => parsedMap (map m)
  end.

Definition plainMesh (o : Object3D) : bool :=
  if isMesh o then forallb plainMaterial (materialList (material o)) else true.

Definition disposable (obj : Object3D) : bool := forallb plainMesh (nodes obj).

(** The claim of the specification: every resource reachable from the node is
    released exactly once. *)
Definition releasedExactlyOnce (obj : Object3D) : Prop :=
  forall r, In r (references obj) ->
            timesReleased r (fst (disposeObject3D obj)) = 1%nat.

(** The visit of the children inside [replaceMaterials], by name. *)
Fixpoint replaceAll (l : list Object3D) (k : nat) {struct l} : list Object3D * nat :=
  match l with
  | [] => ([], k)
  | c :: l' =>
      let (c', k1) := replaceMaterials k c in
      let (l'', k2) := replaceAll l' k1 in
      (c' :: l'', k2)
  end.

(** Both maps are textures, and the same texture object. *)
Definition sameTexture (v v' : MapValue) : Prop :=
  match v, v' with
  | MapTexture t, MapTexture t' => tex_id t' = tex_id t
  | _, _ => False
  end.

(** An object after the replacement, compared with the object [before] it.  A
    mesh has a new [MeshStandardMaterial] with roughness 0.7, metalness 0.1 and
    black emissive; it holds the texture of the one original material when
    that had one, and no map when the mesh had no material or a material
    without map.  Other objects keep their material. *)
Definition standardised (before after : Object3D) : Prop :=
  isMesh after = isMesh before /\
  geometry after = geometry before /\
  (isMesh before = false -> material after = material before) /\
  (isMesh before = true ->
   exists m, material after = OneMaterial m /\
     isMeshStandardMaterial m = true /\
     roughness m = 0.7 /\ metalness m = 0.1 /\ emissive m = N0 /\
     (forall m0 t, material before = OneMaterial m0 -> map m0 = MapTexture t ->
                   sameTexture (map m0) (map m)) /\
     (forall m0, material before = OneMaterial m0 -> map m0 = MapNull ->
                 map m = MapNull) /\
     (material before = NoMaterial -> map m = MapNull)).

(** ** The component variant without load identifier (unnamed/part_000)

    Its [loadPlanet] has no load identifier and no loading state: the fields
    [currentLoadId] and [loading] keep their initial values and a request
    captures identifier 0.  Its mount effect has no guard and loads Earth. *)

Module Unguarded.

Section Operations.

Variable setFromEuler : Vec3 -> Quaternion.

(** [loadPlanet] (part_000 128-146), up to the return of [loader.load] *)
Definition loadPlanet (path : string) (s : Viewer) : Viewer :=
  match sceneRef s with
  | None => s
  | Some _ => removePrevious (issueLoad (String.append "/models/" path) 0) s
  end.

(** The success callback (part_000 137-142): every result is attached. *)
Definition onLoad (req : Request) (gltfScene : Object3D) (s : Viewer) : Viewer :=
  attach (handle req) (centerAndFit gltfScene) s.

(** The failure callback (part_000 144) *)
Definition onError (req : Request) (err : string) (s : Viewer) : Viewer :=
  set_console (console s ++ [String.append "GLB load error: " err]) s.

(** The mount effect (part_000 25-84) *)
Definition mount (w h : Q) (s : Viewer) : Viewer :=
  let s1 := set_host true true true s in
  let s2 := set_sceneRef (Some [DirectionalLight; AmbientLight]) s1 in
  let s3 := set_surface (aspectOf w h) (w, h) s2 in
  animateBy setFromEuler 0.002 (loadPlanet "earth.glb" s3).

Definition step (s : Viewer) (e : Event) : Viewer :=
  match e with
  | Mount w h => mount w h s
  | Unmount => cleanup s
  | RequestLoad path => loadPlanet path s
  | LoadSuccess h gltfScene => resolve h (fun req => onLoad req gltfScene) s
  | LoadFailure h err => resolve h (fun req => onError req err) s
  | Frame => if initialized s then animateBy setFromEuler 0.002 s else s
  | Resize container => if resizeListening s then handleResize container s else s
  end.

Definition run (s : Viewer) (es : list Event) : Viewer := fold_left step es s.

End Operations.

End Unguarded.

(** ** Concrete models *)

Definition box (id : nat) (x0 x1 y0 y1 z0 z1 : Q) : BufferGeometry :=
  mkGeometry (Parsed id)
    [ Vector3.make x0 y0 z0; Vector3.make x1 y0 z0;
      Vector3.make x0 y1 z0; Vector3.make x1 y1 z0;
      Vector3.make x0 y0 z1; Vector3.make x1 y0 z1;
      Vector3.make x0 y1 z1; Vector3.make x1 y1 z1 ].

Definition surfaceTexture : Texture := mkTexture (Parsed 2) NoColorSpace false.

Definition surface : Material :=
  mkMaterial (Parsed 1) true (MapTexture surfaceTexture) 1 1 N0.

Definition plain : Material :=
  mkMaterial (Parsed 3) false MapNull 1 0 N0.

(** A scene whose only mesh spans [2,4] x [0,2] x [0,2]: its bounding box is
    centred at (3, 1, 1) and its largest dimension is 2. *)
Definition offCentre : Object3D :=
  Group [Mesh (box 0 2 4 0 2 0 2) (OneMaterial surface)].

(** A body and its ring that share one material. *)
Definition ringed : Object3D :=
  Group [ Mesh (box 0 (-1) 1 (-1) 1 (-1) 1) (OneMaterial surface);
          Mesh (box 4 (-2) 2 0 0 (-2) 2) (OneMaterial surface) ].

(** Meshes with a missing geometry, an absent material, a material without
    map, and an array of materials with an absent entry. *)
Definition assorted : Object3D :=
  Group [ mkObject3D true Vector3.zero Vector3.zero identityQuaternion
            (Vector3.setScalar 1) None NoMaterial [];
          Mesh (box 5 0 1 0 1 0 1) (OneMaterial plain);
          Mesh (box 6 0 1 0 1 0 1) (MaterialArray [Some surface; None; Some plain]) ].

Definition noRotation : Vec3 -> Quaternion := fun _ => identityQuaternion.

(** ** Similar placements

    [similar s u v' v]: the point [v'] is the image of [v] under the uniform
    scaling by [s] followed by the translation by [u]. *)

Definition shift (s : Q) (u v : Vec3) : Vec3 :=
  Vector3.make (s * Vector3.x v + Vector3.x u)
               (s * Vector3.y v + Vector3.y u)
               (s * Vector3.z v + Vector3.z u).

Definition similar (s : Q) (u v' v : Vec3) : Prop := v' =v= shift s u v.

Definition similarMatrix (s : Q) (u : Vec3) (m' m : Matrix4.t) : Prop :=
  forall v, similar s u (Matrix4.apply m' v) (Matrix4.apply m v).

Definition similarBox (s : Q) (u : Vec3) (b' b : Box3.t) : Prop :=
  match b', b with
  | None, None => True
  | Some (lo', hi'), Some (lo, hi) => similar s u lo' lo /\ similar s u hi' hi
  | _, _ => False
  end.

(** The largest dimension of the world bounding box of an object. *)
Definition maxDimension (o : Object3D) : Q :=
  maxDimOf (Box3.getSize (setFromObject o)).

Definition boxCenter (o : Object3D) : Vec3 :=
  Box3.getCenter (setFromObject o).

(** The root that GLTFLoader creates for [gltf.scene] is a new [Group]: its
    scale is (1, 1, 1). *)
Definition unitScale (o : Object3D) : Prop := scale o =v= Vector3.setScalar 1.

(** ** The invariant of the viewer *)

Fixpoint removeFirst (r : nat) (l : list nat) : list nat :=
  match l with
  | [] => []
  | x :: l' => if Nat.eqb r x then l' else x :: removeFirst r l'
  end.

(** The regular mode of the viewer: the scene shows the displayed model and
    nothing else, load identifiers and loader handles advance together, nothing
    is displayed while the current request is pending, and the displayed model
    is the result of the latest request. *)
Definition Normal (s : Viewer) : Prop :=
  attached s = displayed s /\
  issued s = currentLoadId s /\
  (forall req, In req (pending s) -> loadId req = currentLoadId s ->
               planetRef s = None) /\
  (forall r, planetRef s = Some r -> S r = currentLoadId s).

(** The mode after [disposeObject3D] threw inside [loadPlanet]: the model is
    off the scene but still referenced, and every pending request is stale. *)
Definition Stuck (s : Viewer) : Prop :=
  attached s = [] /\
  (exists r, planetRef s = Some r /\ disposable (heap s r) = false) /\
  Forall (fun req => (loadId req < currentLoadId s)%nat) (pending s).

Record Invariant (s : Viewer) : Prop := mkInvariant {
  (* before the mount there is no scene, no model and no request *)
  inv_uninit : initialized s = false -> sceneRef s = None;
  inv_unmounted : sceneRef s = None -> planetRef s = None /\ pending s = [];
  inv_pending : Forall (fun req => loadId req = S (handle req) /\
                                   (loadId req <= currentLoadId s)%nat /\
                                   (handle req < issued s)%nat) (pending s);
  inv_handles : NoDup (List.map handle (pending s));
  inv_mode : Normal s \/ Stuck s }.

(** Every displayed model can be disposed of. *)
Definition Disposable (s : Viewer) : Prop :=
  forall r, planetRef s = Some r -> disposable (heap s r) = true.

(** A session: mount, request Earth, request Mars before Earth arrives, then
    both loads succeed in the order they were issued. *)
Definition earthThenMars : list Event :=
  [ Mount 800 600;
    RequestLoad "/models/earth.glb";
    RequestLoad "/models/mars.glb" ]%string.

Definition bothArrive : list Event :=
  earthThenMars ++ [ LoadSuccess 0 ringed; LoadSuccess 1 offCentre ].

(** A session that displays the Sun and then requests Venus. *)
Definition sunShown : list Event :=
  [ Mount 800 600; RequestLoad "/models/sun.glb"; LoadSuccess 0 ringed ]%string.

(** The load state of the viewer. *)
Definition loadState (s : Viewer) : nat * bool * option nat :=
  (currentLoadId s, loading s, planetRef s).

(** The variant without identifier, with Earth (loaded by its mount effect)
    still in flight when Mars is requested; both loads then succeed. *)
Definition unguardedBothArrive : list Event :=
  [ Mount 800 600; RequestLoad "mars.glb";
    LoadSuccess 0 ringed; LoadSuccess 1 offCentre ]%string.

(** A mesh with an array of materials. *)
Definition twoMaterials : Object3D :=
  Group [Mesh (box 7 0 1 0 1 0 1) (MaterialArray [Some surface; Some plain])].

(** * Further definitions: the rest of the viewer's code *)

(** The two lights the mount effect adds (PlanetViewer.jsx 57-60). *)
Definition lights : list SceneChild := [DirectionalLight; AmbientLight].

(** A request whose callbacks captured the current identifier is pending. *)
Definition currentPending (s : Viewer) : Prop :=
  exists req, In req (pending s) /\ loadId req = currentLoadId s.

(** What the mount effect has set up, or not yet. *)
Definition Mounted (s : Viewer) : Prop :=
  (initialized s = false /\ sceneRef s = None) \/
  (initialized s = true /\
   sceneRef s = Some (lights ++ List.map Planet (attached s))).

(** A session with one request in flight and one model displayed before. *)
Definition sunThenVenus : list Event :=
  sunShown ++ [RequestLoad "/models/venus.glb"]%string.

(** [t] released an initial segment of [l]: all of it if it completed, and
    not all of it if it threw. *)
Definition releasedPrefix (t : Trace) (l : list Resource) : Prop :=
  exists rest, l = fst t ++ rest /\ (snd t = Completed <-> rest = []).

(** What the inline disposal of the vanilla script calls [dispose()] on, for
    one object: the geometry of any object that has one, and each material of
    its slot; no texture. *)
Definition vanillaEntry (m : option Material) : list Resource :=
  match m with
  | None => []
  | Some m => [MaterialRes (mat_id m)]
  end.

Definition vanillaReferences (o : Object3D) : list Resource :=
  match geometry o with
  | Some g => [GeometryRes (geo_id g)]
  | None => []
  end ++
  match material o with
  | NoMaterial => []
  | OneMaterial m => [MaterialRes (mat_id m)]
  | MaterialArray ms => flat_map vanillaEntry ms
  end.

(** No material array of the tree has an absent entry. *)
Definition fullArrays (o : Object3D) : bool :=
  forallb (fun c => match material c with
                    | MaterialArray ms =>
                        forallb (fun m => match m with Some _ => true | None => false end) ms
                    | _ => true
                    end) (nodes o).

(** The state after [disposeObject3D] threw on root [r] inside [loadPlanet]:
    nothing attached, [planetRef] still on [r], every pending request stale
    and the loading flag left on. *)
Definition Jammed (r : nat) (s : Viewer) : Prop :=
  attached s = [] /\ planetRef s = Some r /\ disposable (heap s r) = false /\
  Forall (fun req => (loadId req < currentLoadId s)%nat) (pending s) /\
  loading s = true.

(** A session that displays a model with an array of materials. *)
Definition arrayShown : list Event :=
  [ Mount 800 600; RequestLoad "/models/saturn.glb"; LoadSuccess 0 twoMaterials ]%string.

(** A line: an object with a geometry and a material that is not a mesh. *)
Definition orbitLine : Object3D :=
  Group [ mkObject3D false Vector3.zero Vector3.zero identityQuaternion
            (Vector3.setScalar 1) (Some (box 8 0 1 0 0 0 0)) (OneMaterial plain) [];
          Mesh (box 9 0 1 0 1 0 1) (OneMaterial surface) ].

(** A box whose minimum is below its maximum on every axis. *)
Definition ordered (b : Box3.t) : Prop :=
  match b with
  | None => True
  | Some (lo, hi) =>
      Vector3.x lo <= Vector3.x hi /\ Vector3.y lo <= Vector3.y hi /\
      Vector3.z lo <= Vector3.z hi
  end.

(** Width, height and depth of the world bounding box of an object. *)
Definition boxSize (o : Object3D) : Vec3 := Box3.getSize (setFromObject o).

(** The meshes a traversal of [o] visits. *)
Definition meshCount (o : Object3D) : nat := List.length (filter isMesh (nodes o)).

Definition isMaterialRes (r : Resource) : bool :=
  match r with
  | MaterialRes _ => true
  | _ => false
  end.

(** The materials created with identifiers [n], [n + 1], ..., [n + k - 1]. *)
Definition createdMaterials (n k : nat) : list Resource :=
  List.map (fun i => MaterialRes (Created i)) (seq n k).

(** ** The menu of PlanetViewer.jsx

    The component state next to the viewer: [activePlanet], set by
    [setActivePlanet]. *)

Record Component : Type := mkComponent {
  viewer : Viewer;
  activePlanet : string }.

(** [String.prototype.toLowerCase] on the letters A to Z.  The names of the
    catalog are ASCII without the letter k, and a string with a character
    outside ASCII lowercases to a string with such a character or with a k:
    it equals no lowercased name, here as in JavaScript. *)
Definition lowerChar (c : Ascii.ascii) : Ascii.ascii :=
  let n := Ascii.nat_of_ascii c in
  if ((65 <=? n) && (n <=? 90))%nat then Ascii.ascii_of_nat (n + 32) else c.

Fixpoint toLowerCase (s : string) : string :=
  match s with
  | EmptyString => EmptyString
  | String c s' => String (lowerChar c) (toLowerCase s')
  end.

(** [PLANETS.find((p) => p.name.toLowerCase() === planet.toLowerCase())] *)
Definition findPlanet (planet : string) : option (string * string) :=
  find (fun p => String.eqb (toLowerCase (fst p)) (toLowerCase planet)) PLANETS.

(** [handlePlanetClick] (PlanetViewer.jsx 209-212) on a catalog entry
    (name, file) *)
Definition handlePlanetClick (p : string * string) (c : Component) : Component :=
  mkComponent (loadPlanet (snd p) (viewer c)) (fst p).

(** The click listener of a menu button (PlanetViewer.jsx 91-101);
    [planet] is [e.target.dataset.planet], absent without the attribute. *)
Definition menuClick (planet : option string) (c : Component) : Component :=
  match planet with
  | None => c
  | Some EmptyString => c
  | Some name =>
      match findPlanet name with
      | Some p => mkComponent (loadPlanet (snd p) (viewer c)) (fst p)
      | None => c
      end
  end.

(** What the mount effect set up: [initializedRef.current], the resize
    listener and the canvas in the container. *)
Definition hostState (s : Viewer) : bool * bool * bool :=
  (initialized s, resizeListening s, canvasMounted s).

(** React's strict mode runs the effect, its cleanup and the effect again. *)
Definition strictMount : list Event := [Mount 800 600; Unmount; Mount 800 600].

(** ** Lemmas on traces and traversal *)

Lemma andThen_done_l : forall t, done ;; t = t.
Proof. intros [l o]; reflexivity. Qed.

Lemma andThen_done_r : forall t, t ;; done = t.
Proof.
  intros [l o]; unfold andThen; simpl.
  destruct o; [rewrite app_nil_r|]; reflexivity.
Qed.

Lemma andThen_assoc : forall a b c, (a ;; b) ;; c = a ;; (b ;; c).
Proof.
  intros [la oa] [lb ob] [lc oc]; unfold andThen; simpl.
  destruct oa; simpl; [|reflexivity].
  destruct ob; simpl; [rewrite app_assoc|]; reflexivity.
Qed.

Lemma andThen_completed : forall a b,
  snd (a ;; b) = Completed <-> snd a = Completed /\ snd b = Completed.
Proof.
  intros [la oa] [lb ob]; unfold andThen; simpl.
  destruct oa; simpl; split; intros H; try tauto; try discriminate.
Qed.

Lemma andThen_fst : forall a b,
  snd a = Completed -> fst (a ;; b) = fst a ++ fst b.
Proof. intros [la oa] [lb ob]; unfold andThen; simpl; intros ->; reflexivity. Qed.

Lemma forEach_app : forall (A : Type) (f : A -> Trace) l1 l2,
  forEach f (l1 ++ l2) = forEach f l1 ;; forEach f l2.
Proof.
  intros A f l1 l2; induction l1 as [|a l1 IH]; simpl.
  - now rewrite andThen_done_l.
  - unfold forEach in *; simpl. now rewrite IH, andThen_assoc.
Qed.

Lemma forEach_completed : forall (A : Type) (f : A -> Trace) l,
  snd (forEach f l) = Completed <-> Forall (fun a => snd (f a) = Completed) l.
Proof.
  intros A f l; induction l as [|a l IH]; simpl.
  - split; [constructor | reflexivity].
  - unfold forEach in *; simpl. rewrite andThen_completed, IH.
    split; [intros [H1 H2]; now constructor | intros H; inversion H; tauto].
Qed.

Lemma forEach_fst : forall (A : Type) (f : A -> Trace) l,
  Forall (fun a => snd (f a) = Completed) l ->
  fst (forEach f l) = flat_map (fun a => fst (f a)) l.
Proof.
  intros A f l H; induction H as [|a l Ha Hl IH]; simpl; [reflexivity|].
  unfold forEach in *; simpl. now rewrite andThen_fst, IH.
Qed.

Lemma forEach_flat_map : forall (A B : Type) (f : B -> Trace) (g : A -> list B) l,
  forEach f (flat_map g l) = forEach (fun a => forEach f (g a)) l.
Proof.
  intros A B f g l; induction l as [|a l IH]; simpl; [reflexivity|].
  rewrite forEach_app, IH. reflexivity.
Qed.

Lemma forEach_ext : forall (A : Type) (f g : A -> Trace) l,
  Forall (fun a => f a = g a) l -> forEach f l = forEach g l.
Proof.
  intros A f g l H; induction H as [|a l Ha Hl IH]; simpl; [reflexivity|].
  unfold forEach in *; simpl. now rewrite Ha, IH.
Qed.

(** [traverse] runs the callback over [nodes], in order. *)
Lemma traverse_nodes : forall callback o,
  traverse callback o = forEach callback (nodes o).
Proof.
  intros callback o; induction o as [m p r q s g mt cs IH] using Object3D_tree_ind.
  simpl. change (forEach callback (?a :: ?l)) with (callback a ;; forEach callback l).
  f_equal. rewrite forEach_flat_map. now apply forEach_ext.
Qed.

Lemma disposeMaterial_plain : forall m,
  plainMaterial m = true -> disposeMaterial m = (materialReferences m, Completed).
Proof.
  intros [m|] H; [|reflexivity].
  unfold disposeMaterial, materialReferences; simpl in H.
  destruct (map m); try discriminate; reflexivity.
Qed.

Lemma completed_eq : forall (t : Trace) l,
  snd t = Completed -> fst t = l -> t = (l, Completed).
Proof. intros [l' o] l; simpl; intros -> ->; reflexivity. Qed.

Lemma forEach_total : forall (A : Type) (f : A -> Trace) (g : A -> list Resource) l,
  Forall (fun a => f a = (g a, Completed)) l ->
  forEach f l = (flat_map g l, Completed).
Proof.
  intros A f g l H; induction H as [|a l Ha Hl IH]; [reflexivity|].
  unfold forEach in *; simpl. rewrite Ha, IH. reflexivity.
Qed.

Lemma disposeChild_plain : forall o,
  plainMesh o = true -> disposeChild o = (meshReferences o, Completed).
Proof.
  intros o H; unfold disposeChild, meshReferences, plainMesh in *.
  destruct (isMesh o); [|reflexivity].
  rewrite (forEach_total _ disposeMaterial materialReferences).
  - destruct (geometry o); reflexivity.
  - rewrite forallb_forall in H. apply Forall_forall; intros m Hm.
    now apply disposeMaterial_plain, H.
Qed.

Lemma disposeObject3D_disposable : forall obj,
  disposable obj = true -> disposeObject3D obj = (references obj, Completed).
Proof.
  intros obj H; unfold disposeObject3D, references, disposable in *.
  rewrite traverse_nodes. apply forEach_total.
  rewrite forallb_forall in H. apply Forall_forall; intros o Ho.
  now apply disposeChild_plain, H.
Qed.

Lemma disposeMaterial_throws : forall m,
  plainMaterial m = false -> snd (disposeMaterial m) = TypeError.
Proof.
  intros [m|] H; [|discriminate]. unfold disposeMaterial; simpl in H.
  destruct (map m); try discriminate; reflexivity.
Qed.

(** Disposal completes exactly on the disposable objects. *)
Lemma disposeObject3D_completed : forall obj,
  snd (disposeObject3D obj) = Completed <-> disposable obj = true.
Proof.
  intros obj; split; [|intros H; now rewrite disposeObject3D_disposable].
  unfold disposeObject3D, disposable. rewrite traverse_nodes, forEach_completed.
  intros H. apply forallb_forall; intros o Ho.
  rewrite Forall_forall in H. specialize (H o Ho).
  unfold disposeChild, plainMesh in *. destruct (isMesh o); [|reflexivity].
  apply andThen_completed in H. destruct H as [_ H].
  rewrite forEach_completed, Forall_forall in H.
  apply forallb_forall; intros m Hm. specialize (H m Hm).
  destruct (plainMaterial m) eqn:E; [reflexivity|].
  rewrite (disposeMaterial_throws m E) in H. discriminate.
Qed.

(** The vanilla script never releases a texture. *)
Lemma vanilla_dispose_no_texture : forall obj id,
  ~ In (TextureRes id) (fst (Vanilla.dispose obj)).
Proof.
  assert (E : forall (A : Type) (f : A -> Trace) l id,
             (forall a, ~ In (TextureRes id) (fst (f a))) ->
             ~ In (TextureRes id) (fst (forEach f l))).
  { intros A f l id Hf; induction l as [|a l IH]; simpl; [tauto|].
    unfold forEach in *; simpl. specialize (Hf a).
    destruct (f a) as [la [|]]; unfold andThen; simpl in *; [|exact Hf].
    rewrite in_app_iff. tauto. }
  intros obj id; unfold Vanilla.dispose. rewrite traverse_nodes.
  apply E; intros o. unfold Vanilla.disposeChild.
  assert (G : ~ In (TextureRes id) (fst (disposeGeometry (geometry o)))).
  { destruct (geometry o); simpl; [intros [H|[]]; discriminate | tauto]. }
  destruct (disposeGeometry (geometry o)) as [lg [|]]; unfold andThen; simpl in *;
    [|exact G].
  rewrite in_app_iff. intros [H|H]; [now apply G|].
  destruct (material o) as [|m|ms]; simpl in H; [tauto| |].
  - destruct H as [H|[]]; discriminate.
  - revert H. apply E. intros [m|]; simpl; [intros [H|[]]; discriminate | tauto].
Qed.

(** ** Lemmas on the material replacement *)

Lemma replaceMaterials_unfold : forall n o,
  replaceMaterials n o =
  let (m', n1) := replaceChild n o in
  let (cs', n2) := replaceAll (children o) n1 in
  (set_material_children o m' cs', n2).
Proof. intros n [m p r q s g mt cs]; reflexivity. Qed.

Lemma replaceChild_standardised : forall n o,
  let m' := fst (replaceChild n o) in
  isMesh o = false /\ m' = material o \/
  isMesh o = true /\
  m' = OneMaterial (standardMaterial n (markSRGB (keptMap (material o)))).
Proof.
  intros n o; unfold replaceChild; destruct (isMesh o); simpl; auto.
Qed.

(** The visit keeps the shape of the tree: the replaced objects are the
    visited ones, in order, each with its slot rewritten by [replaceChild]. *)
Lemma replaceMaterials_nodes : forall o n,
  Forall2 (fun a b => isMesh b = isMesh a /\ geometry b = geometry a /\
                      exists k, material b = fst (replaceChild k a))
          (nodes o) (nodes (fst (replaceMaterials n o))).
Proof.
  induction o as [m p r q s g mt cs IH] using Object3D_tree_ind; intros n.
  assert (L : forall k, Forall2 (fun a b => isMesh b = isMesh a /\
                 geometry b = geometry a /\
                 exists k, material b = fst (replaceChild k a))
               (flat_map nodes cs) (flat_map nodes (fst (replaceAll cs k)))).
  { induction IH as [|c cs Hc Hcs IHcs]; intros k; simpl; [constructor|].
    specialize (Hc k). destruct (replaceMaterials k c) as [c' k1].
    specialize (IHcs k1). destruct (replaceAll cs k1) as [l'' k2].
    simpl in *. now apply Forall2_app. }
  rewrite replaceMaterials_unfold.
  destruct (replaceChild n (mkObject3D m p r q s g mt cs)) as [m' n1] eqn:E.
  simpl children.
  specialize (L n1). destruct (replaceAll cs n1) as [cs' n2].
  simpl. constructor; [|exact L].
  simpl. repeat split. exists n. now rewrite E.
Qed.

(** ** Lemmas on vectors, matrices and boxes *)

Lemma Vector3_eq_refl : forall v, v =v= v.
Proof. intros v; repeat split; reflexivity. Qed.

Lemma Vector3_eq_sym : forall v w, v =v= w -> w =v= v.
Proof. intros v w (H1 & H2 & H3); repeat split; now symmetry. Qed.

Lemma Vector3_eq_trans : forall u v w, u =v= v -> v =v= w -> u =v= w.
Proof.
  intros u v w (H1 & H2 & H3) (G1 & G2 & G3); repeat split;
    etransitivity; eassumption.
Qed.

Lemma Qmin_scale_shift : forall s u a b a' b',
  0 <= s -> a' == s * a + u -> b' == s * b + u ->
  Qmin a' b' == s * Qmin a b + u.
Proof.
  intros s u a b a' b' Hs Ha Hb. rewrite Ha, Hb.
  apply (Q.min_monotone (fun x => s * x + u)).
  - intros x y E; now rewrite E.
  - intros x y L. apply Qplus_le_compat; [|apply Qle_refl].
    rewrite (Qmult_comm s x), (Qmult_comm s y). now apply Qmult_le_compat_r.
Qed.

Lemma Qmax_scale_shift : forall s u a b a' b',
  0 <= s -> a' == s * a + u -> b' == s * b + u ->
  Qmax a' b' == s * Qmax a b + u.
Proof.
  intros s u a b a' b' Hs Ha Hb. rewrite Ha, Hb.
  apply (Q.max_monotone (fun x => s * x + u)).
  - intros x y E; now rewrite E.
  - intros x y L. apply Qplus_le_compat; [|apply Qle_refl].
    rewrite (Qmult_comm s x), (Qmult_comm s y). now apply Qmult_le_compat_r.
Qed.

Lemma similar_min : forall s u v' v w' w,
  0 <= s -> similar s u v' v -> similar s u w' w ->
  similar s u (Vector3.min v' w') (Vector3.min v w).
Proof.
  intros s u v' v w' w Hs (H1 & H2 & H3) (G1 & G2 & G3).
  repeat split; simpl; now apply Qmin_scale_shift.
Qed.

Lemma similar_max : forall s u v' v w' w,
  0 <= s -> similar s u v' v -> similar s u w' w ->
  similar s u (Vector3.max v' w') (Vector3.max v w).
Proof.
  intros s u v' v w' w Hs (H1 & H2 & H3) (G1 & G2 & G3).
  repeat split; simpl; now apply Qmax_scale_shift.
Qed.

Lemma similarBox_expandByPoint : forall s u b' b p' p,
  0 <= s -> similarBox s u b' b -> similar s u p' p ->
  similarBox s u (Box3.expandByPoint b' p') (Box3.expandByPoint b p).
Proof.
  intros s u [[lo' hi']|] [[lo hi]|] p' p Hs Hb Hp; simpl in *; try tauto.
  destruct Hb as [Hlo Hhi]. split; [now apply similar_min | now apply similar_max].
Qed.

Lemma similarBox_fold : forall s u ps' ps,
  0 <= s -> Forall2 (similar s u) ps' ps ->
  forall b' b, similarBox s u b' b ->
  similarBox s u (fold_left Box3.expandByPoint ps' b')
                 (fold_left Box3.expandByPoint ps b).
Proof.
  intros s u ps' ps Hs H; induction H as [|p' p ps' ps Hp Hps IH];
    intros b' b Hb; simpl; [exact Hb|].
  apply IH. now apply similarBox_expandByPoint.
Qed.

Lemma similarBox_setFromPoints : forall s u ps' ps,
  0 <= s -> Forall2 (similar s u) ps' ps ->
  similarBox s u (Box3.setFromPoints ps') (Box3.setFromPoints ps).
Proof.
  intros s u ps' ps Hs H. unfold Box3.setFromPoints.
  now apply similarBox_fold.
Qed.

Lemma similarBox_applyMatrix4 : forall s u m' m b,
  0 <= s -> similarMatrix s u m' m ->
  similarBox s u (Box3.applyMatrix4 b m') (Box3.applyMatrix4 b m).
Proof.
  intros s u m' m [[lo hi]|] Hs Hm; [|exact I].
  unfold Box3.applyMatrix4.
  apply similarBox_setFromPoints; [exact Hs|].
  induction (Box3.corners lo hi) as [|c cs IH]; simpl; constructor; auto.
Qed.

Lemma similarBox_union : forall s u a' a b' b,
  0 <= s -> similarBox s u a' a -> similarBox s u b' b ->
  similarBox s u (Box3.union a' b') (Box3.union a b).
Proof.
  intros s u [[la' ha']|] [[la ha]|] [[lb' hb']|] [[lb hb]|] Hs Ha Hb;
    simpl in *; try tauto.
  destruct Ha, Hb. split; [now apply similar_min | now apply similar_max].
Qed.

Lemma apply_multiplyMatrices : forall a b v,
  Matrix4.apply (Matrix4.multiplyMatrices a b) v =v=
  Matrix4.apply a (Matrix4.apply b v).
Proof. intros a b v; repeat split; simpl; ring. Qed.

Lemma similar_compat : forall s u v' v w' w,
  v' =v= w' -> v =v= w -> similar s u v' v -> similar s u w' w.
Proof.
  intros s u v' v w' w (E1 & E2 & E3) (F1 & F2 & F3) (H1 & H2 & H3).
  unfold similar, shift; repeat split; simpl in *.
  - now rewrite <- E1, <- F1.
  - now rewrite <- E2, <- F2.
  - now rewrite <- E3, <- F3.
Qed.

Lemma similarMatrix_multiply : forall s u m' m l,
  similarMatrix s u m' m ->
  similarMatrix s u (Matrix4.multiplyMatrices m' l) (Matrix4.multiplyMatrices m l).
Proof.
  intros s u m' m l H v.
  apply (similar_compat s u (Matrix4.apply m' (Matrix4.apply l v))
                            (Matrix4.apply m (Matrix4.apply l v))).
  - apply Vector3_eq_sym, apply_multiplyMatrices.
  - apply Vector3_eq_sym, apply_multiplyMatrices.
  - apply H.
Qed.

(** Below a pair of similar world matrices the boxes stay similar. *)
Lemma similarBox_expandByObject : forall s u, 0 <= s ->
  forall o m' m b' b,
  similarMatrix s u m' m -> similarBox s u b' b ->
  similarBox s u (expandByObject (Some m') b' o) (expandByObject (Some m) b o).
Proof.
  intros s u Hs.
  induction o as [ms p r q sc g mt cs IH] using Object3D_tree_ind.
  intros m' m b' b Hm Hb. simpl.
  set (l := Matrix4.compose p q sc).
  assert (Hw : similarMatrix s u (Matrix4.multiplyMatrices m' l)
                                 (Matrix4.multiplyMatrices m l))
    by now apply similarMatrix_multiply.
  assert (Hg : similarBox s u
            match g with
            | Some g0 => Box3.union b' (Box3.applyMatrix4 (computeBoundingBox g0)
                                          (Matrix4.multiplyMatrices m' l))
            | None => b'
            end
            match g with
            | Some g0 => Box3.union b (Box3.applyMatrix4 (computeBoundingBox g0)
                                         (Matrix4.multiplyMatrices m l))
            | None => b
            end).
  { destruct g; [|exact Hb].
    apply similarBox_union; auto. now apply similarBox_applyMatrix4. }
  revert Hg. generalize
    (match g with
     | Some g0 => Box3.union b' (Box3.applyMatrix4 (computeBoundingBox g0)
                                   (Matrix4.multiplyMatrices m' l))
     | None => b'
     end)
    (match g with
     | Some g0 => Box3.union b (Box3.applyMatrix4 (computeBoundingBox g0)
                                  (Matrix4.multiplyMatrices m l))
     | None => b
     end).
  induction IH as [|c cs Hc Hcs IHcs]; intros a' a Ha; simpl; [exact Ha|].
  apply IHcs. now apply Hc.
Qed.

Lemma similarBox_children : forall s u, 0 <= s ->
  forall cs m' m b' b,
  similarMatrix s u m' m -> similarBox s u b' b ->
  similarBox s u (fold_left (expandByObject (Some m')) cs b')
                 (fold_left (expandByObject (Some m)) cs b).
Proof.
  intros s u Hs cs; induction cs as [|c cs IH]; intros m' m b' b Hm Hb; simpl;
    [exact Hb|].
  apply IH; [exact Hm|]. now apply similarBox_expandByObject.
Qed.

(** Moving the root to [p'] and giving it the uniform scale [s] maps every
    world point to its image under scaling by [s] and translating by
    [p' - s p], when the root had scale 1. *)
Lemma similarMatrix_root : forall s p' p q sc,
  sc =v= Vector3.setScalar 1 ->
  similarMatrix s (Vector3.sub p' (Vector3.multiplyScalar p s))
                (Matrix4.compose p' q (Vector3.setScalar s))
                (Matrix4.compose p q sc).
Proof.
  intros s p' p q sc (H1 & H2 & H3) v. simpl in H1, H2, H3.
  unfold similar, shift; repeat split; simpl; rewrite H1, H2, H3; ring.
Qed.

Lemma similarBox_centerAndFit : forall o s p',
  0 <= s -> unitScale o ->
  similarBox s (Vector3.sub p' (Vector3.multiplyScalar (position o) s))
             (setFromObject (set_position_scale o p' (Vector3.setScalar s)))
             (setFromObject o).
Proof.
  intros [ms p r q sc g mt cs] s p' Hs H1. unfold unitScale in H1; simpl in H1.
  unfold setFromObject; simpl.
  pose proof (similarMatrix_root s p' p q sc H1) as Hm.
  apply similarBox_children; auto.
  destruct g; [|exact I].
  now apply similarBox_applyMatrix4.
Qed.

Lemma similarBox_getSize : forall s u b' b,
  similarBox s u b' b ->
  Box3.getSize b' =v= Vector3.multiplyScalar (Box3.getSize b) s.
Proof.
  intros s u [[lo' hi']|] [[lo hi]|] H; simpl in *; try tauto.
  - destruct H as [(L1 & L2 & L3) (H1 & H2 & H3)]; simpl in *.
    repeat split; simpl; [rewrite L1, H1 | rewrite L2, H2 | rewrite L3, H3]; ring.
  - repeat split; simpl; ring.
Qed.

Lemma maxDimOf_scale : forall s v' v,
  0 <= s -> v' =v= Vector3.multiplyScalar v s -> maxDimOf v' == s * maxDimOf v.
Proof.
  intros s v' v Hs (H1 & H2 & H3); simpl in *. unfold maxDimOf.
  setoid_replace (s * Qmax (Qmax (Vector3.x v) (Vector3.y v)) (Vector3.z v))
    with (s * Qmax (Qmax (Vector3.x v) (Vector3.y v)) (Vector3.z v) + 0) by ring.
  apply Qmax_scale_shift; [exact Hs | | rewrite H3; ring].
  apply Qmax_scale_shift; [exact Hs | rewrite H1; ring | rewrite H2; ring].
Qed.

Lemma similarBox_getCenter : forall s u lo' hi' lo hi,
  similarBox s u (Some (lo', hi')) (Some (lo, hi)) ->
  Box3.getCenter (Some (lo', hi')) =v= shift s u (Box3.getCenter (Some (lo, hi))).
Proof.
  intros s u lo' hi' lo hi [(L1 & L2 & L3) (H1 & H2 & H3)]; simpl in *.
  repeat split; simpl; [rewrite L1, H1 | rewrite L2, H2 | rewrite L3, H3]; field.
Qed.

Lemma fitScale_positive : forall d, 0 < d -> fitScale d = targetSize / d.
Proof.
  intros d H; unfold fitScale. destruct (Qlt_le_dec 0 d) as [_|L]; [reflexivity|].
  exfalso; apply (Qlt_irrefl 0). now apply Qlt_le_trans with d.
Qed.

Lemma fitScale_degenerate : forall d, ~ 0 < d -> fitScale d = 1.
Proof.
  intros d H; unfold fitScale. destruct (Qlt_le_dec 0 d) as [L|_]; tauto.
Qed.

Lemma fitScale_nonneg : forall d, 0 <= fitScale d.
Proof.
  intros d; unfold fitScale. destruct (Qlt_le_dec 0 d) as [L|_]; [|discriminate].
  apply Qlt_le_weak, Qlt_shift_div_l; [exact L|]. rewrite Qmult_0_l. reflexivity.
Qed.

(** After [centerAndFit] the box of a root of scale 1 is the old box scaled by
    the fit factor about the origin and moved by the new position. *)
Lemma centerAndFit_box : forall o,
  unitScale o ->
  let s := fitScale (maxDimension o) in
  similarBox s (Vector3.sub (position (centerAndFit o))
                            (Vector3.multiplyScalar (position o) s))
             (setFromObject (centerAndFit o)) (setFromObject o).
Proof.
  intros o H s. unfold centerAndFit. fold (maxDimension o). fold s.
  apply similarBox_centerAndFit; [apply fitScale_nonneg | exact H].
Qed.

(** ** Centering and fit-scaling *)

(** C4.  When the bounding box of a model has largest dimension d > 0,
    [centerAndFit] sets the uniform scale 1.5 / d, and the largest dimension of
    the bounding box afterwards is 1.5 (for a root of scale 1, as the root of
    a loaded scene is); when d = 0 it sets the scale 1. *)
Theorem centerAndFit_fits : forall o,
  (0 < maxDimension o ->
   scale (centerAndFit o) = Vector3.setScalar (targetSize / maxDimension o) /\
   (unitScale o -> maxDimension (centerAndFit o) == targetSize)) /\
  (maxDimension o == 0 -> scale (centerAndFit o) = Vector3.setScalar 1).
Proof.
  intros o; split.
  - intros Hd; split.
    + unfold centerAndFit; simpl. fold (maxDimension o).
      now rewrite fitScale_positive.
    + intros Hu. pose proof (centerAndFit_box o Hu) as Hb; simpl in Hb.
      apply similarBox_getSize in Hb.
      apply (maxDimOf_scale _ _ _ (fitScale_nonneg _)) in Hb.
      unfold maxDimension at 1. rewrite Hb. fold (maxDimension o).
      rewrite fitScale_positive by exact Hd.
      field. intros E. rewrite E in Hd. discriminate.
  - intros Hd. unfold centerAndFit; simpl. fold (maxDimension o).
    rewrite fitScale_degenerate; [reflexivity|].
    rewrite Hd. discriminate.
Qed.

Lemma centerAndFit_fits_witness :
  0 < maxDimension offCentre /\ unitScale offCentre /\
  scale (centerAndFit offCentre) = Vector3.setScalar (targetSize / maxDimension offCentre) /\
  maxDimension (centerAndFit offCentre) == targetSize /\
  maxDimension (Group []) == 0 /\
  scale (centerAndFit (Group [])) = Vector3.setScalar 1.
Proof.
  assert (Hd : 0 < maxDimension offCentre) by (vm_compute; reflexivity).
  assert (Hu : unitScale offCentre) by (repeat split; reflexivity).
  assert (H0 : maxDimension (Group []) == 0) by (vm_compute; reflexivity).
  destruct (centerAndFit_fits offCentre) as [H _].
  destruct (H Hd) as [Hs Hm].
  destruct (centerAndFit_fits (Group [])) as [_ G].
  split; [exact Hd|]. split; [exact Hu|]. split; [exact Hs|].
  split; [exact (Hm Hu)|]. split; [exact H0 | exact (G H0)].
Defined.

Lemma position_centerAndFit : forall o,
  position (centerAndFit o) = Vector3.sub (position o) (boxCenter o).
Proof. reflexivity. Qed.

(** Where the centre of the box ends up: for a root of scale 1 with a
    non-empty box centred at c, at (s - 1) (c - p), with s the fit factor and
    p the position the root had.  The translation by -c is applied after the
    scale (the local matrix is T R S), so the scale moves the centre away from
    the origin again. *)
Theorem centerAndFit_centre : forall o,
  unitScale o -> setFromObject o <> None ->
  boxCenter (centerAndFit o) =v=
  Vector3.multiplyScalar (Vector3.sub (boxCenter o) (position o))
                         (fitScale (maxDimension o) - 1).
Proof.
  intros o Hu Hne. pose proof (centerAndFit_box o Hu) as Hb; cbv zeta in Hb.
  rewrite position_centerAndFit in Hb. unfold boxCenter in *.
  set (s := fitScale (maxDimension o)) in *. clearbody s.
  destruct (setFromObject o) as [[lo hi]|] eqn:Eo; [|congruence].
  destruct (setFromObject (centerAndFit o)) as [[lo' hi']|] eqn:Ec; [|contradiction].
  apply similarBox_getCenter in Hb.
  eapply Vector3_eq_trans; [exact Hb|].
  set (c := Box3.getCenter (Some (lo, hi))).
  repeat split; simpl; ring.
Qed.

Lemma centerAndFit_centre_witness :
  boxCenter (centerAndFit offCentre) =v=
  Vector3.multiplyScalar (Vector3.sub (boxCenter offCentre) (position offCentre))
                         (fitScale (maxDimension offCentre) - 1).
Proof.
  apply centerAndFit_centre.
  - repeat split; reflexivity.
  - vm_compute; discriminate.
Defined.

(** C3 at the model [offCentre] (one mesh spanning [2,4] x [0,2] x [0,2]).
    The code computes the centre (3, 1, 1), moves the root to (-3, -1, -1)
    and sets the scale 0.75; the box of the result spans [-1.5, 0] x
    [-1, 0.5] x [-1, 0.5] and its centre is (-0.75, -0.25, -0.25). *)
Theorem normalize_offCentre :
  let planet := fst (normalize 0 offCentre) in
  position planet =v= Vector3.make (-3) (-1) (-1) /\
  scale planet =v= Vector3.setScalar 0.75 /\
  boxCenter planet =v= Vector3.make (-0.75) (-0.25) (-0.25) /\
  ~ boxCenter planet =v= Vector3.zero.
Proof.
  repeat split; try (vm_compute; reflexivity).
  intros (H & _). vm_compute in H. discriminate.
Qed.

(** ** Lemmas on the scene and on pending requests *)

Lemma attachedPlanets_app : forall a b,
  attachedPlanets (a ++ b) = attachedPlanets a ++ attachedPlanets b.
Proof.
  induction a as [|[| |r] a IH]; intros b; simpl; rewrite ?IH; reflexivity.
Qed.

Lemma attachedPlanets_sceneRemove : forall r cs,
  attachedPlanets (sceneRemove (Planet r) cs) = removeFirst r (attachedPlanets cs).
Proof.
  intros r cs; induction cs as [|[| |x] cs IH]; simpl; rewrite ?IH; try reflexivity.
  destruct (Nat.eqb r x); simpl; [reflexivity | now rewrite IH].
Qed.

Lemma attachedPlanets_sceneAdd : forall r cs,
  attachedPlanets (sceneAdd (Planet r) cs) = removeFirst r (attachedPlanets cs) ++ [r].
Proof.
  intros r cs; unfold sceneAdd.
  now rewrite attachedPlanets_app, attachedPlanets_sceneRemove.
Qed.

Lemma findRequest_In : forall h l req,
  findRequest h l = Some req -> In req l /\ handle req = h.
Proof.
  intros h l req; induction l as [|r l IH]; simpl; [discriminate|].
  destruct (Nat.eqb (handle r) h) eqn:E.
  - intros [= ->]. apply Nat.eqb_eq in E. auto.
  - intros H; destruct (IH H); auto.
Qed.

Lemma dropRequest_In : forall h l req,
  In req (dropRequest h l) -> In req l.
Proof.
  intros h l req; induction l as [|r l IH]; simpl; [tauto|].
  destruct (Nat.eqb (handle r) h); simpl; [auto|]. intros [H|H]; auto.
Qed.

Lemma dropRequest_handle : forall h l req,
  NoDup (List.map handle l) -> In req (dropRequest h l) -> handle req <> h.
Proof.
  intros h l req; induction l as [|r l IH]; simpl; [tauto|].
  intros N; inversion N as [|x xs Hx Hxs]; subst.
  destruct (Nat.eqb (handle r) h) eqn:E; simpl.
  - apply Nat.eqb_eq in E; subst h. intros Hin Heq.
    apply Hx. rewrite <- Heq. now apply in_map.
  - intros [H|H]; [subst; now apply Nat.eqb_neq in E | auto].
Qed.

Lemma dropRequest_NoDup : forall h l,
  NoDup (List.map handle l) -> NoDup (List.map handle (dropRequest h l)).
Proof.
  intros h l; induction l as [|r l IH]; simpl; [auto|].
  intros N; inversion N as [|x xs Hx Hxs]; subst.
  destruct (Nat.eqb (handle r) h); simpl; [assumption|].
  constructor; [|auto]. intros Hin. apply Hx.
  apply in_map_iff in Hin. destruct Hin as (q & Hq & Hin).
  apply in_map_iff. exists q. split; [assumption|]. eapply dropRequest_In; eauto.
Qed.

Lemma dropRequest_Forall : forall (P : Request -> Prop) h l,
  Forall P l -> Forall P (dropRequest h l).
Proof.
  intros P h l H. apply Forall_forall. intros req Hin.
  rewrite Forall_forall in H. apply H. eapply dropRequest_In; eauto.
Qed.

(** ** Lemmas on disposability *)

Lemma disposable_root : forall o o',
  isMesh o' = isMesh o -> material o' = material o -> children o' = children o ->
  disposable o' = disposable o.
Proof.
  intros [m p r q s g mt cs] [m' p' r' q' s' g' mt' cs']; simpl.
  intros -> -> ->. reflexivity.
Qed.

Lemma disposable_centerAndFit : forall o, disposable (centerAndFit o) = disposable o.
Proof. intros o; now apply disposable_root. Qed.

Lemma disposable_rotateY : forall f dy o, disposable (rotateY f dy o) = disposable o.
Proof. intros f dy o; now apply disposable_root. Qed.

Lemma parsedMap_markSRGB : forall v, parsedMap (markSRGB v) = parsedMap v.
Proof. intros [|t|]; reflexivity. Qed.

Lemma disposable_replaceMaterials : forall g n,
  parsedScene g = true -> disposable (fst (replaceMaterials n g)) = true.
Proof.
  intros g n H. unfold disposable, parsedScene in *.
  pose proof (replaceMaterials_nodes g n) as F.
  rewrite forallb_forall in H. apply forallb_forall.
  induction F as [|a b la lb (Hm & _ & k & Hk) F IH]; intros x Hx; [destruct Hx|].
  destruct Hx as [<-|Hx].
  - unfold plainMesh. rewrite Hm, Hk. unfold replaceChild.
    destruct (isMesh a); [|reflexivity]. simpl.
    rewrite parsedMap_markSRGB, andb_true_r.
    specialize (H a (or_introl eq_refl)). unfold parsedNode in H.
    destruct (material a); simpl; auto.
  - apply IH; [|exact Hx]. intros y Hy. apply H. now right.
Qed.

Lemma parsedScene_disposable : forall g, parsedScene g = true -> disposable g = true.
Proof.
  intros g H. unfold disposable, parsedScene in *.
  rewrite forallb_forall in H. apply forallb_forall. intros x Hx.
  specialize (H x Hx). unfold parsedNode in H. unfold plainMesh.
  destruct (isMesh x); [|reflexivity].
  destruct (material x); simpl; try rewrite andb_true_r; auto. discriminate.
Qed.

(** ** The invariant holds in every reachable state *)

Lemma Normal_same : forall s s',
  sceneRef s' = sceneRef s -> planetRef s' = planetRef s ->
  currentLoadId s' = currentLoadId s -> issued s' = issued s ->
  pending s' = pending s ->
  Normal s -> Normal s'.
Proof.
  unfold Normal, attached, displayed; intros s s' Hs Hp Hc Hn Hq.
  rewrite Hs, Hp, Hc, Hn, Hq. auto.
Qed.

Lemma Stuck_same : forall s s',
  sceneRef s' = sceneRef s -> planetRef s' = planetRef s ->
  currentLoadId s' = currentLoadId s -> pending s' = pending s ->
  (forall r, planetRef s = Some r -> disposable (heap s' r) = disposable (heap s r)) ->
  Stuck s -> Stuck s'.
Proof.
  unfold Stuck, attached; intros s s' Hs Hp Hc Hq Hh (A & (r & Hr & Hd) & F).
  rewrite Hs, Hc, Hq. split; [exact A|]. split; [|exact F].
  exists r. rewrite Hp. split; [exact Hr|]. now rewrite Hh.
Qed.

Lemma Invariant_same : forall s s',
  (initialized s' = false -> initialized s = false) ->
  sceneRef s' = sceneRef s -> planetRef s' = planetRef s ->
  currentLoadId s' = currentLoadId s -> issued s' = issued s ->
  pending s' = pending s ->
  (forall r, planetRef s = Some r -> disposable (heap s' r) = disposable (heap s r)) ->
  Invariant s -> Invariant s'.
Proof.
  intros s s' Hi Hs Hp Hc Hn Hq Hh [I1 I2 I5 I6 IM].
  constructor; rewrite ?Hs, ?Hp, ?Hc, ?Hn, ?Hq; auto.
  destruct IM as [N|K]; [left; now apply Normal_same with s
                        |right; now apply Stuck_same with s].
Qed.

Lemma Invariant_initial : Invariant initialViewer.
Proof.
  constructor; simpl; auto; try (now constructor).
Qed.

Lemma Invariant_animateBy : forall f dy s, Invariant s -> Invariant (animateBy f dy s).
Proof.
  intros f dy s H. apply Invariant_same with s; auto; unfold animateBy;
    destruct (planetRef s) as [r|] eqn:E; simpl; auto.
  intros r' [= <-]. unfold heapStore. rewrite Nat.eqb_refl.
  apply disposable_rotateY.
Qed.

Lemma Invariant_handleResize : forall c s, Invariant s -> Invariant (handleResize c s).
Proof.
  intros [[w h]|] s H; simpl; [|exact H].
  apply Invariant_same with s; auto.
Qed.

Lemma Invariant_cleanup : forall s, Invariant s -> Invariant (cleanup s).
Proof.
  intros s H. unfold cleanup. destruct (resizeListening s); [|exact H].
  apply Invariant_same with s; auto; simpl;
    destruct (planetRef s) eqn:E; simpl; auto.
Qed.

Lemma Normal_of_idle : forall s,
  planetRef s = None -> Normal s \/ Stuck s -> Normal s.
Proof.
  intros s Hp [N|(_ & (r & Hr & _) & _)]; [exact N | congruence].
Qed.

Lemma Invariant_mount : forall f w h s, Invariant s -> Invariant (mount f w h s).
Proof.
  intros f w h s H. unfold mount. destruct (initialized s) eqn:Ei; [exact H|].
  apply Invariant_animateBy.
  destruct H as [I1 I2 I5 I6 IM].
  destruct (I2 (I1 Ei)) as [Hp Hq].
  destruct (Normal_of_idle s Hp IM) as (N1 & N2 & N3 & N4).
  constructor; simpl; rewrite ?Hp, ?Hq; auto; try discriminate;
    try (constructor; fail).
  left. unfold Normal, attached, displayed; simpl. rewrite Hp, Hq.
  repeat split; auto. intros r; discriminate.
Qed.

Lemma Invariant_onError : forall req err s, Invariant s -> Invariant (onError req err s).
Proof.
  intros req err s H. apply Invariant_same with s; auto; unfold onError;
    destruct (Nat.eqb (loadId req) (currentLoadId s)); simpl; auto.
Qed.

Lemma removeFirst_at_most_one : forall r l,
  l = [r] \/ l = [] -> removeFirst r l = [].
Proof. intros r l [->| ->]; simpl; [now rewrite Nat.eqb_refl | reflexivity]. Qed.

Lemma Invariant_loadPlanet : forall path s, Invariant s -> Invariant (loadPlanet path s).
Proof.
  intros path s H. unfold loadPlanet.
  destruct (sceneRef s) as [cs|] eqn:Es; [|exact H].
  destruct H as [I1 I2 I5 I6 IM].
  assert (Hinit : initialized s = false -> False).
  { intros E. rewrite (I1 E) in Es. discriminate. }
  assert (Hold : Forall (fun req => loadId req = S (handle req) /\
                    (loadId req <= S (currentLoadId s))%nat /\
                    (handle req < issued s)%nat) (pending s)).
  { eapply Forall_impl; [|exact I5]. simpl; intros a (A & B & C). auto. }
  assert (Hstale : Forall (fun req => (loadId req < S (currentLoadId s))%nat)
                          (pending s)).
  { eapply Forall_impl; [|exact I5]. simpl; intros a (A & B & C). lia. }
  assert (Hissue : issued s = currentLoadId s ->
            Forall (fun req => loadId req = S (handle req) /\
                      (loadId req <= S (currentLoadId s))%nat /\
                      (handle req < S (issued s))%nat)
                   (pending s ++ [mkRequest (issued s) (S (currentLoadId s)) path]) /\
            NoDup (List.map handle
                   (pending s ++ [mkRequest (issued s) (S (currentLoadId s)) path]))).
  { intros N2. split.
    - apply Forall_app; split.
      + eapply Forall_impl; [|exact I5]. simpl; intros a (A & B & C). auto.
      + constructor; [|constructor]. simpl. rewrite N2. auto.
    - rewrite map_app; simpl. apply NoDup_app; [exact I6 | repeat constructor; auto |].
      intros x Hx [<-|[]]. apply in_map_iff in Hx. destruct Hx as (q & Hq & Hin).
      rewrite Forall_forall in I5. destruct (I5 q Hin) as (A & B & C). lia. }
  unfold removePrevious; simpl.
  destruct (planetRef s) as [r|] eqn:Ep.
  - simpl. rewrite Es; simpl.
    assert (Hoff : attachedPlanets (sceneRemove (Planet r) cs) = []).
    { rewrite attachedPlanets_sceneRemove. apply removeFirst_at_most_one.
      destruct IM as [(N1 & _)|(K1 & _)]; unfold attached, displayed in *;
        rewrite Es in *; rewrite ?Ep in *; auto. }
    destruct (disposeObject3D (heap s r)) as [log [|]] eqn:Ed.
    + assert (Hd : disposable (heap s r) = true)
        by (apply disposeObject3D_completed; now rewrite Ed).
      destruct IM as [(N1 & N2 & N3 & N4)|(_ & (r' & Hr' & Hd') & _)];
        [|rewrite Ep in Hr'; injection Hr' as <-; congruence].
      destruct (Hissue N2) as [P1 P2].
      constructor; simpl; auto; try discriminate; try tauto.
      left. unfold Normal, attached, displayed; simpl.
      repeat split; auto. intros r0; discriminate.
    + assert (Hd : disposable (heap s r) = false).
      { destruct (disposable (heap s r)) eqn:E; [|reflexivity].
        apply disposeObject3D_completed in E. rewrite Ed in E. discriminate. }
      constructor; simpl; auto; try discriminate; try tauto.
      right. unfold Stuck, attached; simpl.
      split; [exact Hoff|]. split; [|exact Hstale]. exists r. auto.
  - destruct (Normal_of_idle s Ep IM) as (N1 & N2 & N3 & N4).
    destruct (Hissue N2) as [P1 P2].
    unfold attached, displayed in N1. rewrite Es, Ep in N1.
    constructor; simpl; rewrite ?Es, ?Ep; auto; try discriminate; try tauto.
    left. unfold Normal, attached, displayed; simpl. rewrite Es, Ep.
    repeat split; auto. intros r0; discriminate.
Qed.

Lemma normalize_fst : forall n g,
  fst (normalize n g) = centerAndFit (fst (replaceMaterials n g)).
Proof. intros n g; unfold normalize. now destruct (replaceMaterials n g). Qed.

Lemma Invariant_resolved : forall h s,
  Invariant s -> Invariant (set_loads (issued s) (dropRequest h (pending s)) s).
Proof.
  intros h s [I1 I2 I5 I6 IM].
  constructor; simpl; auto.
  - intros E. destruct (I2 E) as [-> ->]. auto.
  - now apply dropRequest_Forall.
  - now apply dropRequest_NoDup.
  - destruct IM as [(N1 & N2 & N3 & N4)|(K1 & K2 & K3)]; [left|right].
    + split; [exact N1|]. split; [exact N2|]. split; [|exact N4].
      intros req Hin. apply N3. apply (dropRequest_In h). exact Hin.
    + split; [exact K1|]. split; [exact K2|]. simpl. now apply dropRequest_Forall.
Qed.

(** A pending request with the current identifier exists only in the regular
    mode, with a scene and without a displayed model. *)
Lemma current_request_pending : forall s req,
  Invariant s -> In req (pending s) -> loadId req = currentLoadId s ->
  Normal s /\ planetRef s = None /\ attached s = [] /\
  exists cs, sceneRef s = Some cs /\ attachedPlanets cs = [].
Proof.
  intros s req [I1 I2 I5 I6 IM] Hin E.
  assert (N : Normal s).
  { destruct IM as [N|(_ & _ & K3)]; [exact N|].
    rewrite Forall_forall in K3. specialize (K3 req Hin). lia. }
  split; [exact N|]. destruct N as (N1 & N2 & N3 & N4).
  assert (Hp : planetRef s = None) by (apply (N3 req Hin); exact E).
  split; [exact Hp|]. unfold attached, displayed in *. rewrite Hp in N1.
  split; [exact N1|].
  destruct (sceneRef s) as [cs|] eqn:Es.
  - exists cs. auto.
  - destruct (I2 eq_refl) as [_ Hq]. rewrite Hq in Hin. destruct Hin.
Qed.

(** The success callback keeps the invariant, for a request that was pending
    in [s0] and has just been taken off the list. *)
Lemma Invariant_onLoad : forall h req g s0,
  Invariant s0 -> findRequest h (pending s0) = Some req ->
  Invariant (onLoad req g (set_loads (issued s0) (dropRequest h (pending s0)) s0)).
Proof.
  intros h req g s0 H0 Hf.
  pose proof (Invariant_resolved h s0 H0) as H.
  destruct (findRequest_In _ _ _ Hf) as [Hin Hh].
  set (s := set_loads (issued s0) (dropRequest h (pending s0)) s0) in *.
  unfold onLoad.
  destruct (Nat.eqb (loadId req) (currentLoadId s)) eqn:E; simpl negb; cbv iota.
  - (* current *)
    apply Nat.eqb_eq in E.
    destruct (current_request_pending s0 req H0 Hin E)
      as ((N1 & N2 & N3 & N4) & Hp & _ & cs & Es & Hcs).
    destruct (normalize (allocated s) g) as [planet n'].
    destruct H0 as [I1 I2 I5 I6 IM].
    rewrite Forall_forall in I5. destruct (I5 req Hin) as (A & B & C).
    simpl. rewrite Es. unfold attach; simpl. rewrite Es.
    constructor; simpl; auto; try discriminate.
    + intros Ei. rewrite (I1 Ei) in Es. discriminate.
    + apply dropRequest_Forall. apply Forall_forall. exact I5.
    + now apply dropRequest_NoDup.
    + left. unfold Normal, attached, displayed; simpl. repeat split; auto.
      * rewrite attachedPlanets_sceneAdd, Hcs. reflexivity.
      * intros req' Hin' E'. exfalso.
        apply (dropRequest_handle h (pending s0) req' I6 Hin').
        destruct (I5 req' (dropRequest_In _ _ _ Hin')) as (A' & B' & C').
        simpl in E. lia.
      * intros r [= <-]. simpl in E. lia.
  - (* stale *)
    apply Invariant_same with s; auto.
Qed.

Lemma Invariant_step : forall f s e, Invariant s -> Invariant (step f s e).
Proof.
  intros f s [w h| |path|h g|h err| |c] H; simpl.
  - now apply Invariant_mount.
  - now apply Invariant_cleanup.
  - now apply Invariant_loadPlanet.
  - unfold resolve. destruct (findRequest h (pending s)) as [req|] eqn:E; [|exact H].
    now apply Invariant_onLoad.
  - unfold resolve. destruct (findRequest h (pending s)) as [req|] eqn:E; [|exact H].
    apply Invariant_onError. now apply Invariant_resolved.
  - destruct (initialized s); [now apply Invariant_animateBy | exact H].
  - destruct (resizeListening s); [now apply Invariant_handleResize | exact H].
Qed.

Lemma Invariant_reachable : forall f s, reachable f s -> Invariant s.
Proof.
  intros f s H; induction H as [|s e Hs IH].
  - exact Invariant_initial.
  - now apply Invariant_step.
Qed.

Lemma attached_at_most_one : forall s,
  Invariant s -> attached s = displayed s \/ attached s = [].
Proof.
  intros s [_ _ _ _ [(N1 & _)|(K1 & _)]]; auto.
Qed.

(** ** Loader results as GLTFLoader parses them *)

Lemma reachableParsed_reachable : forall f s, reachableParsed f s -> reachable f s.
Proof.
  intros f s H; induction H as [|s e Hs IH Ha]; [constructor|].
  now apply reachable_step.
Qed.

Lemma Disposable_same : forall s s',
  planetRef s' = planetRef s ->
  (forall r, planetRef s = Some r -> disposable (heap s' r) = disposable (heap s r)) ->
  Disposable s -> Disposable s'.
Proof.
  unfold Disposable; intros s s' Hp Hh H r Hr. rewrite Hp in Hr.
  rewrite Hh; auto.
Qed.

Lemma Disposable_idle : forall s, planetRef s = None -> Disposable s.
Proof. unfold Disposable; intros s -> r; discriminate. Qed.

Lemma Disposable_animateBy : forall f dy s, Disposable s -> Disposable (animateBy f dy s).
Proof.
  intros f dy s H. apply Disposable_same with s; auto; unfold animateBy;
    destruct (planetRef s) as [r|] eqn:E; simpl; auto.
  intros r' [= <-]. unfold heapStore. rewrite Nat.eqb_refl.
  apply disposable_rotateY.
Qed.

Lemma Disposable_step : forall f s e,
  Disposable s -> admissible e -> Disposable (step f s e).
Proof.
  intros f s [w h| |path|h g|h err| |c] H Ha; simpl.
  - unfold mount. destruct (initialized s); [exact H|].
    apply Disposable_animateBy. now apply Disposable_same with s.
  - unfold cleanup. destruct (resizeListening s); [|exact H].
    apply Disposable_same with s; simpl; destruct (planetRef s) eqn:E; simpl; auto.
  - unfold loadPlanet. destruct (sceneRef s); [|exact H].
    unfold removePrevious; simpl. destruct (planetRef s) as [r|] eqn:Ep; simpl.
    + destruct (disposeObject3D (heap s r)) as [log [|]]; simpl.
      * now apply Disposable_idle.
      * apply Disposable_same with s; simpl; auto.
    + now apply Disposable_idle.
  - unfold resolve. destruct (findRequest h (pending s)) as [req|]; [|exact H].
    unfold onLoad; simpl.
    destruct (Nat.eqb (loadId req) (currentLoadId s)); simpl.
    + pose proof (normalize_fst (allocated s) g) as Hn.
      destruct (normalize (allocated s) g) as [planet n']; simpl in Hn.
      simpl. destruct (sceneRef s) eqn:Es; simpl.
      * unfold attach; simpl. rewrite Es. unfold Disposable; simpl.
        intros r [= <-]. unfold heapStore. rewrite Nat.eqb_refl, Hn.
        rewrite disposable_centerAndFit. now apply disposable_replaceMaterials.
      * apply Disposable_same with s; auto.
    + apply Disposable_same with s; auto.
  - unfold resolve. destruct (findRequest h (pending s)) as [req|]; [|exact H].
    unfold onError; simpl.
    destruct (Nat.eqb (loadId req) (currentLoadId s)); apply Disposable_same with s; auto.
  - destruct (initialized s); [now apply Disposable_animateBy | exact H].
  - destruct (resizeListening s); [|exact H].
    destruct c as [[w h]|]; simpl; [apply Disposable_same with s; auto | exact H].
Qed.

Lemma Disposable_reachableParsed : forall f s, reachableParsed f s -> Disposable s.
Proof.
  intros f s H; induction H as [|s e Hs IH Ha].
  - now apply Disposable_idle.
  - now apply Disposable_step.
Qed.

(** With parsed load results the viewer stays in its regular mode. *)
Lemma Normal_reachableParsed : forall f s, reachableParsed f s -> Normal s.
Proof.
  intros f s H. pose proof (Disposable_reachableParsed f s H) as D.
  apply reachableParsed_reachable, Invariant_reachable in H.
  destruct H as [_ _ _ _ [N|(_ & (r & Hr & Hd) & _)]]; [exact N|].
  rewrite (D r Hr) in Hd. discriminate.
Qed.

Lemma reachable_run : forall f es s, reachable f s -> reachable f (run f s es).
Proof.
  intros f es; induction es as [|e es IH]; intros s Hs; simpl; [exact Hs|].
  apply IH. now apply reachable_step.
Qed.

Lemma reachableParsed_run : forall f es s,
  reachableParsed f s -> Forall admissible es -> reachableParsed f (run f s es).
Proof.
  intros f es; induction es as [|e es IH]; intros s Hs Ha; simpl; [exact Hs|].
  inversion Ha; subst. apply IH; [|assumption]. now apply parsed_step.
Qed.

Ltac session := apply reachable_run; constructor.
Ltac parsed_session := apply reachableParsed_run; repeat constructor.

(** ** The model-swap lifecycle *)

(** C2.  In every reachable state at most one planet root is attached to the
    scene, and an attached root is the displayed model. *)
Theorem at_most_one_planet : forall f s,
  reachable f s ->
  (List.length (attached s) <= 1)%nat /\
  (forall r, In r (attached s) -> planetRef s = Some r).
Proof.
  intros f s H. apply Invariant_reachable, attached_at_most_one in H.
  destruct H as [-> | ->]; simpl; [|split; [lia | tauto]].
  unfold displayed. destruct (planetRef s); simpl; split; try lia; try tauto.
  intros r [<-|[]]. reflexivity.
Qed.

Lemma at_most_one_planet_witness :
  reachable noRotation (run noRotation initialViewer bothArrive) /\
  (List.length (attached (run noRotation initialViewer bothArrive)) <= 1)%nat /\
  (forall r, In r (attached (run noRotation initialViewer bothArrive)) ->
             planetRef (run noRotation initialViewer bothArrive) = Some r).
Proof.
  assert (H : reachable noRotation (run noRotation initialViewer bothArrive))
    by session.
  split; [exact H | exact (at_most_one_planet noRotation _ H)].
Defined.

(** With parsed load results the scene shows exactly the displayed model. *)
Lemma attached_is_displayed : forall f s,
  reachableParsed f s -> attached s = displayed s.
Proof. intros f s H. now destruct (Normal_reachableParsed f s H). Qed.

(** X18.  In PlanetViewer.jsx, in every reachable state whatever is attached
    to the scene is the displayed model and the result of the request issued
    last.  When the success callback of a pending request runs: if the
    identifier it captured differs from the current one, the result goes to
    the disposal routine and scene, displayed model, loading flag, counter and
    stored roots stay as they were; if it equals the current one, the result
    becomes the one attached and displayed model. *)
Theorem only_latest_result_attached : forall f s,
  reachable f s ->
  (forall r, In r (attached s) ->
             planetRef s = Some r /\ S r = currentLoadId s) /\
  (forall h req g, findRequest h (pending s) = Some req ->
   let s' := step f s (LoadSuccess h g) in
   loadId req = S h /\
   (loadId req <> currentLoadId s ->
    s' = set_released (released s ++ fst (disposeObject3D g))
           (set_loads (issued s) (dropRequest h (pending s)) s) /\
    sceneRef s' = sceneRef s /\ planetRef s' = planetRef s /\
    loading s' = loading s /\ currentLoadId s' = currentLoadId s /\
    heap s' = heap s /\
    released s' = released s ++ fst (disposeObject3D g) /\
    ~ In h (attached s')) /\
   (loadId req = currentLoadId s ->
    attached s' = [h] /\ planetRef s' = Some h /\ loading s' = false /\
    released s' = released s)).
Proof.
  intros f s Hr. apply Invariant_reachable in Hr.
  assert (Hlatest : forall r, In r (attached s) ->
                              planetRef s = Some r /\ S r = currentLoadId s).
  { destruct Hr as [_ _ _ _ [(N1 & _ & _ & N4)|(K1 & _)]].
    - intros r. rewrite N1. unfold displayed.
      destruct (planetRef s) as [r0|] eqn:Ep; simpl; [|tauto].
      intros [<-|[]]. split; [reflexivity | now apply N4].
    - rewrite K1. intros r []. }
  split; [exact Hlatest|]. intros h req g Hf s'.
  destruct (findRequest_In _ _ _ Hf) as [Hin Hh].
  assert (A : loadId req = S (handle req)).
  { destruct Hr as [_ _ I5 _ _]. rewrite Forall_forall in I5.
    now destruct (I5 req Hin). }
  subst s'. simpl. unfold resolve. rewrite Hf. unfold onLoad. simpl currentLoadId.
  destruct (Nat.eqb (loadId req) (currentLoadId s)) eqn:E; simpl negb; cbv iota.
  - apply Nat.eqb_eq in E.
    destruct (current_request_pending s req Hr Hin E)
      as (_ & Hp & _ & cs & Es & Hcs).
    destruct (normalize _ g) as [planet n']. simpl. rewrite Es.
    unfold attach; simpl. rewrite Es. unfold attached; simpl.
    rewrite attachedPlanets_sceneAdd, Hcs. simpl.
    split; [congruence|]. split; [intros N; contradiction|].
    subst h; auto.
  - apply Nat.eqb_neq in E. unfold attached; simpl.
    split; [congruence|]. split; [|intros N; contradiction].
    intros _. repeat split. intros Hh'. apply Hlatest in Hh'.
    destruct Hh' as [_ Hh']. congruence.
Qed.

Lemma only_latest_result_attached_witness :
  let s := run noRotation initialViewer earthThenMars in
  let s' := step noRotation s (LoadSuccess 0 ringed) in
  reachable noRotation s /\
  findRequest 0 (pending s) = Some (mkRequest 0 1 "/models/earth.glb") /\
  (1 <> currentLoadId s)%nat /\
  sceneRef s' = sceneRef s /\ planetRef s' = planetRef s /\
  loading s' = loading s /\
  released s' = released s ++ fst (disposeObject3D ringed) /\
  ~ In 0%nat (attached s').
Proof.
  intros s s'.
  assert (Hr : reachable noRotation s) by (unfold s; session).
  assert (Hf : findRequest 0 (pending s) = Some (mkRequest 0 1 "/models/earth.glb"))
    by reflexivity.
  assert (Hn : (1 <> currentLoadId s)%nat) by (vm_compute; discriminate).
  destruct (only_latest_result_attached noRotation s Hr) as (_ & Hstep).
  destruct (Hstep 0%nat _ ringed Hf) as (_ & Hstale & _).
  destruct (Hstale Hn) as (_ & H1 & H2 & H3 & _ & _ & H6 & H7).
  split; [exact Hr|]. split; [exact Hf|]. split; [exact Hn|].
  split; [exact H1|]. split; [exact H2|]. split; [exact H3|].
  split; [exact H6 | exact H7].
Defined.

Lemma findRequest_fresh : forall h l req,
  (forall q, In q l -> handle q <> h) -> handle req = h ->
  findRequest h (l ++ [req]) = Some req.
Proof.
  intros h l req; induction l as [|r l IH]; intros Hl Hh; simpl.
  - subst h. now rewrite Nat.eqb_refl.
  - destruct (Nat.eqb (handle r) h) eqn:E.
    + apply Nat.eqb_eq in E. exfalso. apply (Hl r); auto. now left.
    + apply IH; auto. intros q Hq. apply Hl. now right.
Qed.

(** C6.  With load results as the loader parses them, a call of [loadPlanet]
    that finds a displayed model removes it from the scene, runs the disposal
    routine on it (which completes) and clears [planetRef], and only then
    hands the new load to the loader; this holds whatever the outcome of the
    new load, and after a failure of that load nothing is displayed. *)
Theorem loadPlanet_retires_displayed : forall f s path r,
  reachableParsed f s -> planetRef s = Some r ->
  let id := S (currentLoadId s) in
  let s' := loadPlanet path s in
  (exists before,
     s' = issueLoad path id before /\
     sceneRef before = option_map (sceneRemove (Planet r)) (sceneRef s) /\
     attached before = [] /\ planetRef before = None /\
     released before = released s ++ fst (disposeObject3D (heap s r)) /\
     pending before = pending s) /\
  snd (disposeObject3D (heap s r)) = Completed /\
  attached s' = [] /\ planetRef s' = None /\
  pending s' = pending s ++ [mkRequest (issued s) id path] /\
  (forall err, let s'' := step f s' (LoadFailure (issued s) err) in
     attached s'' = [] /\ planetRef s'' = None /\ loading s'' = false) /\
  (forall g, let s'' := step f s' (LoadSuccess (issued s) g) in
     attached s'' = [issued s] /\ planetRef s'' = Some (issued s)).
Proof.
  intros f s path r Hr Hp id s'.
  pose proof (Disposable_reachableParsed f s Hr r Hp) as D.
  destruct (Normal_reachableParsed f s Hr) as (N1 & N2 & N3 & N4).
  apply reachableParsed_reachable, Invariant_reachable in Hr.
  destruct Hr as [I1 I2 I5 I6 _].
  destruct (sceneRef s) as [cs|] eqn:Es;
    [|destruct (I2 eq_refl) as [Hq _]; congruence].
  unfold attached, displayed in N1. rewrite Es, Hp in N1.
  pose proof (disposeObject3D_disposable _ D) as Hd.
  assert (Hfresh : forall q, In q (pending s) -> handle q <> issued s).
  { intros q Hq. rewrite Forall_forall in I5. destruct (I5 q Hq) as (_ & _ & C). lia. }
  assert (Es' : s' = issueLoad path id
            (set_planetRef None
               (set_released (released s ++ references (heap s r))
                  (set_sceneRef (Some (sceneRemove (Planet r) cs))
                     (set_currentLoadId id (setLoading true s)))))).
  { unfold s', loadPlanet. rewrite Es. unfold removePrevious. simpl.
    rewrite Hp, Es. simpl. rewrite Hd. reflexivity. }
  assert (Ha : attachedPlanets (sceneRemove (Planet r) cs) = []).
  { rewrite attachedPlanets_sceneRemove, N1. simpl. now rewrite Nat.eqb_refl. }
  split; [|split; [now rewrite Hd|]].
  { eexists. split; [exact Es'|]. rewrite Hd. simpl. unfold attached; simpl.
    repeat split. exact Ha. }
  rewrite Es'. unfold attached. simpl.
  split; [exact Ha|]. split; [reflexivity|]. split; [reflexivity|]. split.
  - intros err. unfold resolve; simpl.
    rewrite (findRequest_fresh (issued s) (pending s)
               (mkRequest (issued s) id path) Hfresh eq_refl).
    unfold onError; simpl. subst id. rewrite Nat.eqb_refl. simpl.
    repeat split. exact Ha.
  - intros g. unfold resolve; simpl.
    rewrite (findRequest_fresh (issued s) (pending s)
               (mkRequest (issued s) id path) Hfresh eq_refl).
    unfold onLoad; simpl. subst id. rewrite Nat.eqb_refl. simpl.
    destruct (normalize (allocated s) g) as [planet n']. simpl.
    unfold attach; simpl. rewrite attachedPlanets_sceneAdd, Ha. auto.
Qed.

Lemma loadPlanet_retires_displayed_witness :
  let s := run noRotation initialViewer sunShown in
  let s' := loadPlanet "/models/venus.glb" s in
  reachableParsed noRotation s /\ planetRef s = Some 0%nat /\
  attached s' = [] /\ planetRef s' = None /\
  snd (disposeObject3D (heap s 0%nat)) = Completed /\
  (forall err, let s'' := step noRotation s' (LoadFailure (issued s) err) in
     attached s'' = [] /\ planetRef s'' = None /\ loading s'' = false).
Proof.
  intros s s'.
  assert (Hr : reachableParsed noRotation s) by (unfold s; parsed_session).
  assert (Hp : planetRef s = Some 0%nat) by reflexivity.
  destruct (loadPlanet_retires_displayed noRotation s "/models/venus.glb" 0 Hr Hp)
    as (_ & Hd & Ha & Hn & _ & Hfail & _).
  split; [exact Hr|]. split; [exact Hp|]. split; [exact Ha|].
  split; [exact Hn|]. split; [exact Hd | exact Hfail].
Defined.

(** C8.  The failure callback of a pending request leaves scene, displayed
    model, stored roots, counter and released resources as they were.  With
    the current identifier it clears the loading flag, and nothing is
    displayed; with a stale identifier the loading flag stays as well: only
    the request leaves the pending list and the error is written to the
    console (which happens in both cases). *)
Theorem failure_callback : forall f s h req err,
  reachable f s -> findRequest h (pending s) = Some req ->
  let s' := step f s (LoadFailure h err) in
  sceneRef s' = sceneRef s /\ planetRef s' = planetRef s /\
  heap s' = heap s /\ released s' = released s /\
  currentLoadId s' = currentLoadId s /\
  (loadId req = currentLoadId s ->
   loading s' = false /\ planetRef s' = None /\ attached s' = []) /\
  (loadId req <> currentLoadId s ->
   loading s' = loading s /\
   s' = set_console (console s ++ [String.append "GLB load error: " err])
          (set_loads (issued s) (dropRequest h (pending s)) s)).
Proof.
  intros f s h req err Hr Hf s'. apply Invariant_reachable in Hr.
  destruct (findRequest_In _ _ _ Hf) as [Hin Hh].
  subst s'. simpl. unfold resolve. rewrite Hf. unfold onError. simpl currentLoadId.
  destruct (Nat.eqb (loadId req) (currentLoadId s)) eqn:E; simpl.
  - apply Nat.eqb_eq in E.
    destruct (current_request_pending s req Hr Hin E) as (_ & Hp & Ha & _).
    repeat split; try congruence. exact Ha.
  - apply Nat.eqb_neq in E. repeat split; congruence.
Qed.

Lemma failure_callback_witness :
  let s := run noRotation initialViewer earthThenMars in
  reachable noRotation s /\
  findRequest 1 (pending s) = Some (mkRequest 1 2 "/models/mars.glb") /\
  loading (step noRotation s (LoadFailure 1 "404")) = false /\
  planetRef (step noRotation s (LoadFailure 1 "404")) = None /\
  loading (step noRotation s (LoadFailure 0 "404")) = loading s.
Proof.
  intros s.
  assert (Hr : reachable noRotation s) by (unfold s; session).
  assert (H1 : findRequest 1 (pending s) = Some (mkRequest 1 2 "/models/mars.glb"))
    by reflexivity.
  assert (H0 : findRequest 0 (pending s) = Some (mkRequest 0 1 "/models/earth.glb"))
    by reflexivity.
  destruct (failure_callback noRotation s 1 _ "404" Hr H1) as (_ & _ & _ & _ & _ & Hc & _).
  destruct (failure_callback noRotation s 0 _ "404" Hr H0) as (_ & _ & _ & _ & _ & _ & Hs).
  destruct (Hc eq_refl) as (A & B & _).
  assert (Hn : (1 <> currentLoadId s)%nat) by (vm_compute; discriminate).
  split; [exact Hr|]. split; [exact H1|]. split; [exact A|].
  split; [exact B | exact (proj1 (Hs Hn))].
Defined.

(** C9.  The frame callback adds 0.001 to [rotation.y] of the displayed model
    when there is one, and changes no stored root otherwise; neither the frame
    callback nor the resize callback changes the current identifier, the
    loading flag or [planetRef] (nor the scene or the pending requests). *)
Theorem frame_and_resize : forall f s container,
  let a := animate f s in
  let z := handleResize container s in
  match planetRef s with
  | Some r =>
      rotation (heap a r) =
      Vector3.make (Vector3.x (rotation (heap s r)))
                   (Vector3.y (rotation (heap s r)) + 0.001)
                   (Vector3.z (rotation (heap s r))) /\
      (forall k, k <> r -> heap a k = heap s k)
  | None => heap a = heap s
  end /\
  loadState a = loadState s /\ loadState z = loadState s /\
  loadState (step f s Frame) = loadState s /\
  loadState (step f s (Resize container)) = loadState s /\
  sceneRef a = sceneRef s /\ pending a = pending s /\
  sceneRef z = sceneRef s /\ pending z = pending s /\ heap z = heap s.
Proof.
  intros f s container a z.
  assert (Ha : loadState a = loadState s /\ sceneRef a = sceneRef s /\
               pending a = pending s).
  { unfold a, animate, animateBy. destruct (planetRef s) eqn:E; simpl;
      unfold loadState; simpl; rewrite ?E; auto. }
  assert (Hz : loadState z = loadState s /\ sceneRef z = sceneRef s /\
               pending z = pending s /\ heap z = heap s).
  { unfold z, handleResize. destruct container as [[w h]|]; simpl; auto. }
  destruct Ha as (A1 & A2 & A3), Hz as (Z1 & Z2 & Z3 & Z4).
  split; [|repeat split; auto].
  - unfold a, animate, animateBy. destruct (planetRef s) as [r|]; simpl; [|reflexivity].
    unfold heapStore. rewrite Nat.eqb_refl. split; [reflexivity|].
    intros k Hk. apply Nat.eqb_neq in Hk. now rewrite Hk.
  - simpl. destruct (initialized s); [exact A1 | reflexivity].
  - simpl. destruct (resizeListening s); [exact Z1 | reflexivity].
Qed.



(** The cleanup leaves [sceneRef.current] set: after it the guard of
    [loadPlanet] still lets a request through. *)
Lemma cleanup_keeps_scene : forall s, sceneRef (cleanup s) = sceneRef s.
Proof.
  intros s; unfold cleanup. destruct (resizeListening s); [|reflexivity].
  simpl. destruct (planetRef s); reflexivity.
Qed.

(** ** Material replacement *)

Lemma replaced_standardised : forall a b,
  isMesh b = isMesh a -> geometry b = geometry a ->
  (exists k, material b = fst (replaceChild k a)) -> standardised a b.
Proof.
  intros a b Hm Hg [k Hk]. unfold standardised, replaceChild in *.
  split; [exact Hm|]. split; [exact Hg|].
  destruct (isMesh a); simpl in Hk; split; intros E; try discriminate; auto.
  eexists; split; [exact Hk|]. simpl. repeat split.
  - intros m0 t -> Ht. simpl. rewrite Ht. simpl. reflexivity.
  - intros m0 -> Ht. simpl. now rewrite Ht.
  - intros ->. reflexivity.
Qed.

Lemma nodes_centerAndFit : forall o,
  exists root, nodes (centerAndFit o) = root :: flat_map nodes (children o) /\
               isMesh root = isMesh o /\ geometry root = geometry o /\
               material root = material o.
Proof. intros [m p r q s g mt cs]. eexists; split; [reflexivity|]. auto. Qed.

Lemma normalize_standardised : forall n g,
  Forall2 standardised (nodes g) (nodes (fst (normalize n g))).
Proof.
  intros n g. rewrite normalize_fst.
  pose proof (replaceMaterials_nodes g n) as F.
  destruct (nodes_centerAndFit (fst (replaceMaterials n g)))
    as (root & -> & R1 & R2 & R3).
  destruct (fst (replaceMaterials n g)) as [m p r q s gm mt cs]; simpl in *.
  destruct g as [m0 p0 r0 q0 s0 g0 mt0 cs0]; simpl in *.
  inversion F as [|a b la lb (Hm & Hg & Hk) F']; subst.
  constructor.
  - apply replaced_standardised; simpl in *; try congruence;
      destruct Hk as [k Hk]; exists k; congruence.
  - eapply Forall2_impl; [|exact F']. intros a b (A & B & C).
    now apply replaced_standardised.
Qed.

(** C7.  When the success callback runs with the current identifier (and a
    scene), the root it attaches and records is the normalized one: object by
    object, every mesh of the loaded tree has a new [MeshStandardMaterial]
    with roughness 0.7, metalness 0.1 and black emissive that holds the
    texture of the mesh's original material when that had one, and other
    objects keep their material. *)
Theorem onLoad_standardises : forall req g s cs,
  loadId req = currentLoadId s -> sceneRef s = Some cs ->
  let s' := onLoad req g s in
  planetRef s' = Some (handle req) /\ In (handle req) (attached s') /\
  heap s' (handle req) = fst (normalize (allocated s) g) /\
  Forall2 standardised (nodes g) (nodes (heap s' (handle req))).
Proof.
  intros req g s cs Hid Hs s'.
  pose proof (normalize_standardised (allocated s) g) as Hn.
  unfold s', onLoad. rewrite Hid, Nat.eqb_refl. simpl negb. cbv iota.
  destruct (normalize (allocated s) g) as [planet n']. simpl in Hn |- *.
  rewrite Hs. unfold attach; simpl. rewrite Hs. unfold attached; simpl.
  unfold heapStore. rewrite Nat.eqb_refl.
  repeat split; auto.
  rewrite attachedPlanets_sceneAdd, in_app_iff. right. now left.
Qed.

Lemma onLoad_standardises_witness :
  let s := run noRotation initialViewer
               [Mount 800 600; RequestLoad "/models/earth.glb"] in
  let req := mkRequest 0 1 "/models/earth.glb" in
  let s' := onLoad req ringed s in
  planetRef s' = Some 0%nat /\
  Forall2 standardised (nodes ringed) (nodes (heap s' 0%nat)).
Proof.
  intros s req s'.
  destruct (onLoad_standardises req ringed s [DirectionalLight; AmbientLight]
              eq_refl eq_refl) as (H1 & _ & _ & H4).
  split; [exact H1 | exact H4].
Defined.

(** On a mesh whose [material] is an array, [child.material?.map] is the
    array's own method [map]: the new material stores that function as its
    map, and disposing such a mesh later throws. *)
Lemma array_material_replaced : forall n o ms,
  isMesh o = true -> material o = MaterialArray ms ->
  fst (replaceChild n o) = OneMaterial (standardMaterial n MapArrayMethod).
Proof. intros n o ms Hm Ha. unfold replaceChild. now rewrite Hm, Ha. Qed.

Lemma twoMaterials_not_disposable :
  snd (disposeObject3D twoMaterials) = Completed /\
  snd (disposeObject3D (fst (normalize 0 twoMaterials))) = TypeError.
Proof. split; reflexivity. Qed.

(** ** Disposal *)

Lemma timesReleased_positive : forall r log,
  In r log -> (1 <= timesReleased r log)%nat.
Proof.
  intros r log H. unfold timesReleased.
  apply (count_occ_In Resource_eq_dec) in H. lia.
Qed.

(** C5, as the code has it.  On a node none of whose mesh materials holds a
    function as its map, [disposeObject3D] completes, and what it releases is
    the list of references of the meshes in visiting order: the geometry of a
    mesh once for the mesh, a material and its texture once for every slot
    that holds the material.  So every resource reachable from a mesh is
    released at least once, as many times as it is referenced, and exactly
    once when no resource is referenced twice. *)
Theorem disposeObject3D_releases : forall obj,
  disposable obj = true ->
  disposeObject3D obj = (references obj, Completed) /\
  (forall r, In r (references obj) ->
             (1 <= timesReleased r (fst (disposeObject3D obj)))%nat) /\
  (forall r, timesReleased r (fst (disposeObject3D obj)) =
             count_occ Resource_eq_dec (references obj) r) /\
  (NoDup (references obj) -> releasedExactlyOnce obj).
Proof.
  intros obj H. pose proof (disposeObject3D_disposable obj H) as E.
  split; [exact E|]. unfold releasedExactlyOnce. rewrite E. simpl.
  split; [intros r Hr; now apply timesReleased_positive|].
  split; [reflexivity|].
  intros N r Hr. unfold timesReleased.
  apply (NoDup_count_occ' Resource_eq_dec); assumption.
Qed.

Lemma disposeObject3D_releases_witness :
  disposable assorted = true /\
  disposeObject3D assorted =
  ([ GeometryRes (Parsed 5); MaterialRes (Parsed 3);
     GeometryRes (Parsed 6); TextureRes (Parsed 2); MaterialRes (Parsed 1);
     MaterialRes (Parsed 3) ], Completed) /\
  (1 <= timesReleased (TextureRes (Parsed 2)) (fst (disposeObject3D assorted)))%nat.
Proof.
  assert (H : disposable assorted = true) by reflexivity.
  destruct (disposeObject3D_releases assorted H) as (E & L & _ & _).
  split; [exact H|]. split; [exact E|].
  apply L. vm_compute. tauto.
Defined.

(** C5 as stated fails on [ringed], whose two meshes share one material: the
    material and its texture are released twice. *)
Lemma ringed_released_twice :
  timesReleased (MaterialRes (Parsed 1)) (fst (disposeObject3D ringed)) = 2%nat /\
  timesReleased (TextureRes (Parsed 2)) (fst (disposeObject3D ringed)) = 2%nat /\
  ~ releasedExactlyOnce ringed.
Proof.
  split; [reflexivity|]. split; [reflexivity|].
  intros H. specialize (H (MaterialRes (Parsed 1))).
  assert (Hin : In (MaterialRes (Parsed 1)) (references ringed))
    by (vm_compute; tauto).
  specialize (H Hin). vm_compute in H. discriminate.
Qed.

(** ** The variant without load identifier *)

(** C1.  The component variant without load identifier (unnamed/part_000)
    attaches a superseded result.  Its mount effect requests Earth, and Mars
    is requested while that load is in flight, so Earth's request is no longer
    the one issued last.  When both loads succeed, each success callback
    attaches its result: Earth's root is in the scene beside Mars's, it is not
    the displayed model, and neither callback handed anything to the disposal
    routine. *)
Theorem unguarded_attaches_every_result :
  let inFlight := Unguarded.run noRotation initialViewer
                    [Mount 800 600; RequestLoad "mars.glb"]%string in
  let earthArrived := Unguarded.step noRotation inFlight (LoadSuccess 0 ringed) in
  let s := Unguarded.run noRotation initialViewer unguardedBothArrive in
  pending inFlight = [ mkRequest 0 0 "/models/earth.glb";
                       mkRequest 1 0 "/models/mars.glb" ]%string /\
  attached earthArrived = [0%nat] /\ planetRef earthArrived = Some 0%nat /\
  released earthArrived = [] /\
  s = Unguarded.step noRotation earthArrived (LoadSuccess 1 offCentre) /\
  attached s = [0; 1]%nat /\ planetRef s = Some 1%nat /\ released s = [] /\
  heap s 0%nat = centerAndFit ringed /\ heap s 1%nat = centerAndFit offCentre.
Proof.
  cbv zeta.
  split; [reflexivity|]. split; [reflexivity|]. split; [reflexivity|].
  split; [reflexivity|]. split; [reflexivity|]. split; [reflexivity|].
  split; [reflexivity|]. split; [reflexivity|]. split; reflexivity.
Qed.

(** The same clicks and arrivals in PlanetViewer.jsx: Earth's result is
    released on arrival and Mars alone is attached. *)
Lemma earth_then_mars :
  let s := run noRotation initialViewer bothArrive in
  attached s = [1%nat] /\ planetRef s = Some 1%nat /\ loading s = false /\
  released s = fst (disposeObject3D ringed).
Proof. repeat split; reflexivity. Qed.

(** * Further properties of the viewer's code *)

(** ** The shape of the scene *)

Lemma sceneRemove_planets : forall r l,
  sceneRemove (Planet r) (lights ++ List.map Planet l) =
  lights ++ List.map Planet (removeFirst r l).
Proof.
  intros r l; simpl. do 2 f_equal.
  induction l as [|x l IH]; simpl; [reflexivity|].
  destruct (Nat.eqb r x); [reflexivity | now rewrite IH].
Qed.

Lemma attachedPlanets_planets : forall l,
  attachedPlanets (lights ++ List.map Planet l) = l.
Proof. intros l; simpl. induction l as [|x l IH]; simpl; congruence. Qed.

Lemma Mounted_same : forall s s',
  initialized s' = initialized s -> sceneRef s' = sceneRef s ->
  Mounted s -> Mounted s'.
Proof.
  unfold Mounted, attached; intros s s' Hi Hs. rewrite Hi, Hs. auto.
Qed.

Lemma Mounted_scene : forall s l,
  initialized s = true -> sceneRef s = Some (lights ++ List.map Planet l) ->
  Mounted s.
Proof.
  intros s l Hi Hs. right. split; [exact Hi|].
  unfold attached. rewrite Hs. now rewrite attachedPlanets_planets.
Qed.

Lemma Mounted_animateBy : forall f dy s, Mounted s -> Mounted (animateBy f dy s).
Proof.
  intros f dy s H. apply Mounted_same with s; auto; unfold animateBy;
    destruct (planetRef s); reflexivity.
Qed.

Lemma sceneAdd_planets : forall r l,
  sceneAdd (Planet r) (lights ++ List.map Planet l) =
  lights ++ List.map Planet (removeFirst r l ++ [r]).
Proof.
  intros r l. unfold sceneAdd.
  now rewrite sceneRemove_planets, map_app, <- app_assoc.
Qed.

Lemma Mounted_onLoad : forall req g s, Mounted s -> Mounted (onLoad req g s).
Proof.
  intros req g s H. unfold onLoad.
  destruct (negb (Nat.eqb (loadId req) (currentLoadId s)));
    [now apply Mounted_same with s|].
  destruct (normalize (allocated s) g) as [planet n'].
  cbn -[lights sceneAdd sceneRemove].
  destruct H as [[Hi Hs]|[Hi Hs]]; rewrite Hs.
  - left. auto.
  - unfold attach. cbn -[lights sceneAdd sceneRemove]. rewrite Hs.
    apply Mounted_scene with (removeFirst (handle req) (attached s) ++ [handle req]);
      [exact Hi|]. cbn -[lights sceneAdd sceneRemove].
    now rewrite sceneAdd_planets.
Qed.

Lemma Mounted_loadPlanet : forall path s, Mounted s -> Mounted (loadPlanet path s).
Proof.
  intros path s H. unfold loadPlanet.
  destruct (sceneRef s) as [cs|] eqn:Es; [|exact H].
  destruct H as [[Hi Hs]|[Hi Hs]]; [congruence|].
  rewrite Es in Hs. injection Hs as Hs.
  change (cs = lights ++ List.map Planet (attached s)) in Hs.
  unfold removePrevious. cbn -[lights sceneAdd sceneRemove disposeObject3D].
  destruct (planetRef s) as [r|]; [|apply Mounted_scene with (attached s);
    [exact Hi | cbn -[lights]; now rewrite Es, Hs at 1]].
  cbn -[lights sceneAdd sceneRemove disposeObject3D]. rewrite Es.
  cbn -[lights sceneAdd sceneRemove disposeObject3D].
  destruct (disposeObject3D (heap s r)) as [log [|]];
    apply Mounted_scene with (removeFirst r (attached s)); auto;
    cbn -[lights sceneAdd sceneRemove]; now rewrite Hs at 1; rewrite sceneRemove_planets.
Qed.

Lemma Mounted_step : forall f s e, Mounted s -> Mounted (step f s e).
Proof.
  intros f s [w h| |path|h g|h err| |c] H; simpl.
  - unfold mount. destruct (initialized s) eqn:Ei; [exact H|].
    apply Mounted_animateBy. now apply Mounted_scene with (@nil nat).
  - unfold cleanup. destruct (resizeListening s); [|exact H].
    apply Mounted_same with s; auto; simpl; destruct (planetRef s); reflexivity.
  - now apply Mounted_loadPlanet.
  - unfold resolve. destruct (findRequest h (pending s)); [|exact H].
    apply Mounted_onLoad. now apply Mounted_same with s.
  - unfold resolve. destruct (findRequest h (pending s)) as [req|]; [|exact H].
    apply Mounted_same with s; auto; unfold onError; simpl;
      destruct (Nat.eqb (loadId req) (currentLoadId s)); reflexivity.
  - destruct (initialized s); [now apply Mounted_animateBy | exact H].
  - destruct (resizeListening s); [|exact H].
    destruct c as [[w h]|]; [now apply Mounted_same with s | exact H].
Qed.

(** X1.  In every reachable state either the mount effect has not run and
    there is no scene, or the scene's children are the two lights, in the
    order they were added, followed by the attached planet roots: no operation
    of the viewer removes or duplicates a light. *)
Theorem scene_is_lights_then_planets : forall f s,
  reachable f s -> Mounted s.
Proof.
  intros f s H; induction H as [|s e Hs IH].
  - left. split; reflexivity.
  - now apply Mounted_step.
Qed.

Lemma scene_is_lights_then_planets_witness :
  reachable noRotation (run noRotation initialViewer bothArrive) /\
  Mounted (run noRotation initialViewer bothArrive).
Proof.
  assert (H : reachable noRotation (run noRotation initialViewer bothArrive))
    by session.
  split; [exact H | exact (scene_is_lights_then_planets noRotation _ H)].
Defined.

(** ** Load identifiers and the loading flag *)

Lemma NoDup_map_eq : forall (A B : Type) (f : A -> B) l a b,
  NoDup (List.map f l) -> In a l -> In b l -> f a = f b -> a = b.
Proof.
  intros A B f l a b; induction l as [|x l IH]; simpl; [tauto|].
  intros N; inversion N as [|y ys Hy Hys]; subst.
  intros [->|Ha] [->|Hb] E; auto.
  - exfalso. apply Hy. rewrite E. now apply in_map.
  - exfalso. apply Hy. rewrite <- E. now apply in_map.
Qed.

Lemma currentLoadId_step : forall f s e,
  (currentLoadId s <= currentLoadId (step f s e) <= S (currentLoadId s))%nat.
Proof.
  intros f s [w h| |path|h g|h err| |c]; simpl.
  - unfold mount, animate, animateBy. destruct (initialized s); [lia|].
    simpl. destruct (planetRef s); simpl; lia.
  - unfold cleanup. destruct (resizeListening s); [|lia].
    simpl. destruct (planetRef s); simpl; lia.
  - unfold loadPlanet. destruct (sceneRef s); [|lia].
    unfold removePrevious; simpl. destruct (planetRef s) as [r|]; simpl; [|lia].
    destruct (disposeObject3D _) as [log [|]]; simpl; lia.
  - unfold resolve. destruct (findRequest h (pending s)) as [req|]; [|lia].
    unfold onLoad; simpl.
    destruct (Nat.eqb (loadId req) (currentLoadId s)); simpl; [|lia].
    destruct (normalize (allocated s) g) as [planet n']; simpl.
    unfold attach; simpl. destruct (sceneRef s); simpl; lia.
  - unfold resolve. destruct (findRequest h (pending s)) as [req|]; [|lia].
    unfold onError; simpl.
    destruct (Nat.eqb (loadId req) (currentLoadId s)); simpl; lia.
  - unfold animate, animateBy. destruct (initialized s); [|lia].
    destruct (planetRef s); simpl; lia.
  - destruct (resizeListening s); [|lia]. destruct c as [[w h]|]; simpl; lia.
Qed.

(** X2.  The load identifier never decreases and grows by at most one per
    event.  In every reachable state the pending requests captured pairwise
    different identifiers between 1 and the current one, so at most one
    pending request is the current one. *)
Theorem load_identifiers : forall f s,
  reachable f s ->
  (forall e, (currentLoadId s <= currentLoadId (step f s e) <= S (currentLoadId s))%nat) /\
  (forall req, In req (pending s) ->
               (1 <= loadId req <= currentLoadId s)%nat) /\
  (forall a b, In a (pending s) -> In b (pending s) ->
               loadId a = loadId b -> a = b).
Proof.
  intros f s H. apply Invariant_reachable in H. destruct H as [_ _ I5 I6 _].
  rewrite Forall_forall in I5.
  split; [intros e; apply currentLoadId_step|]. split.
  - intros req Hin. destruct (I5 req Hin) as (A & B & _). lia.
  - intros a b Ha Hb E. apply (NoDup_map_eq _ _ handle (pending s)); auto.
    destruct (I5 a Ha) as (A & _), (I5 b Hb) as (B & _). lia.
Qed.

Lemma load_identifiers_witness :
  let s := run noRotation initialViewer earthThenMars in
  reachable noRotation s /\
  (forall req, In req (pending s) -> (1 <= loadId req <= currentLoadId s)%nat) /\
  (forall a b, In a (pending s) -> In b (pending s) ->
               loadId a = loadId b -> a = b).
Proof.
  intros s.
  assert (H : reachable noRotation s) by (unfold s; session).
  destruct (load_identifiers noRotation s H) as (_ & A & B).
  split; [exact H|]. split; [exact A | exact B].
Defined.

Lemma dropRequest_keeps : forall h l q,
  In q l -> handle q <> h -> In q (dropRequest h l).
Proof.
  intros h l q; induction l as [|r l IH]; simpl; [tauto|].
  intros [->|Hq] Hh.
  - apply Nat.eqb_neq in Hh. rewrite Hh. now left.
  - destruct (Nat.eqb (handle r) h); [exact Hq | right; auto].
Qed.

(** Taking a stale request off the list keeps the current one, if any;
    taking the current one off leaves none. *)
Lemma currentPending_resolved : forall h req s,
  Invariant s -> findRequest h (pending s) = Some req ->
  (loadId req <> currentLoadId s ->
   (currentPending (set_loads (issued s) (dropRequest h (pending s)) s) <->
    currentPending s)) /\
  (loadId req = currentLoadId s ->
   ~ currentPending (set_loads (issued s) (dropRequest h (pending s)) s)).
Proof.
  intros h req s [_ _ I5 I6 _] Hf.
  destruct (findRequest_In _ _ _ Hf) as [Hin Hh].
  rewrite Forall_forall in I5. unfold currentPending; simpl. split.
  - intros Hne. split; intros (q & Hq & E).
    + exists q. split; [now apply (dropRequest_In h) | exact E].
    + exists q. split; [|exact E]. apply dropRequest_keeps; [exact Hq|].
      intros Hqh. apply Hne. rewrite <- E. f_equal. symmetry.
      apply (NoDup_map_eq _ _ handle (pending s)); auto. congruence.
  - intros Heq (q & Hq & E).
    apply (dropRequest_handle h (pending s) q I6 Hq).
    destruct (I5 q (dropRequest_In _ _ _ Hq)) as (A & _).
    destruct (I5 req Hin) as (B & _). simpl in E. lia.
Qed.

Lemma loading_step : forall f s e,
  Invariant s -> Disposable s -> Normal s ->
  (loading s = true <-> currentPending s) ->
  (loading (step f s e) = true <-> currentPending (step f s e)).
Proof.
  intros f s e HI HD HN HL.
  assert (Same : forall s', loading s' = loading s -> pending s' = pending s ->
            currentLoadId s' = currentLoadId s ->
            (loading s' = true <-> currentPending s')).
  { intros s' E1 E2 E3. unfold currentPending. rewrite E1, E2, E3. exact HL. }
  destruct e as [w h| |path|h g|h err| |c]; simpl.
  - unfold mount, animate, animateBy. destruct (initialized s); [exact HL|].
    apply Same; simpl; destruct (planetRef s); reflexivity.
  - unfold cleanup. destruct (resizeListening s); [|exact HL].
    apply Same; simpl; destruct (planetRef s); reflexivity.
  - unfold loadPlanet. destruct (sceneRef s) as [cs|] eqn:Es; [|exact HL].
    assert (Issued : forall s0, loading s0 = true ->
              currentLoadId s0 = S (currentLoadId s) ->
              (loading (issueLoad path (S (currentLoadId s)) s0) = true <->
               currentPending (issueLoad path (S (currentLoadId s)) s0))).
    { intros s0 E1 E2. split; [intros _|intros _; exact E1].
      exists (mkRequest (issued s0) (S (currentLoadId s)) path). simpl.
      split; [apply in_or_app; right; now left | now rewrite E2]. }
    unfold removePrevious; simpl. destruct (planetRef s) as [r|] eqn:Ep; simpl.
    + rewrite Es; simpl.
      rewrite (disposeObject3D_disposable _ (HD r Ep)).
      exact (Issued (set_planetRef None
               (set_released (released s ++ references (heap s r))
                  (set_sceneRef (Some (sceneRemove (Planet r) cs))
                     (set_currentLoadId (S (currentLoadId s)) (setLoading true s)))))
               eq_refl eq_refl).
    + exact (Issued (set_currentLoadId (S (currentLoadId s)) (setLoading true s))
               eq_refl eq_refl).
  - unfold resolve. destruct (findRequest h (pending s)) as [req|] eqn:Ef; [|exact HL].
    destruct (currentPending_resolved h req s HI Ef) as [Hstale Hcur].
    destruct (findRequest_In _ _ _ Ef) as [Hin _].
    unfold onLoad. simpl currentLoadId.
    destruct (Nat.eqb (loadId req) (currentLoadId s)) eqn:E; simpl negb; cbv iota.
    + apply Nat.eqb_eq in E.
      destruct (current_request_pending s req HI Hin E) as (_ & _ & _ & cs & Es & _).
      destruct (normalize _ g) as [planet n']. simpl. rewrite Es.
      unfold attach; simpl. rewrite Es. simpl.
      split; [discriminate|]. intros C. exfalso. apply (Hcur E). exact C.
    + apply Nat.eqb_neq in E. simpl.
      rewrite HL. symmetry. exact (Hstale E).
  - unfold resolve. destruct (findRequest h (pending s)) as [req|] eqn:Ef; [|exact HL].
    destruct (currentPending_resolved h req s HI Ef) as [Hstale Hcur].
    unfold onError. simpl currentLoadId.
    destruct (Nat.eqb (loadId req) (currentLoadId s)) eqn:E; simpl.
    + apply Nat.eqb_eq in E.
      split; [discriminate|]. intros C. exfalso. apply (Hcur E). exact C.
    + apply Nat.eqb_neq in E. rewrite HL. symmetry. exact (Hstale E).
  - unfold animate, animateBy. destruct (initialized s); [|exact HL].
    apply Same; simpl; destruct (planetRef s); reflexivity.
  - destruct (resizeListening s); [|exact HL].
    destruct c as [[w h]|]; [apply Same; reflexivity | exact HL].
Qed.

(** X3.  With load results as the loader parses them, the loading flag is
    true exactly while the request issued last is pending: [loadPlanet] sets
    it, the callbacks of that request clear it, and the callbacks of
    superseded requests leave it alone. *)
Theorem loading_while_current_pending : forall f s,
  reachableParsed f s -> (loading s = true <-> currentPending s).
Proof.
  intros f s H; induction H as [|s e Hs IH Ha].
  - split; [discriminate | intros (req & [] & _)].
  - apply loading_step; auto.
    + now apply Invariant_reachable with f, reachableParsed_reachable.
    + now apply Disposable_reachableParsed with f.
    + now apply Normal_reachableParsed with f.
Qed.

Lemma loading_while_current_pending_witness :
  let s := run noRotation initialViewer sunThenVenus in
  reachableParsed noRotation s /\ (loading s = true <-> currentPending s).
Proof.
  intros s.
  assert (H : reachableParsed noRotation s) by (unfold s; parsed_session).
  split; [exact H | exact (loading_while_current_pending noRotation s H)].
Defined.

(** ** Teardown *)

Lemma onLoad_current_attaches : forall f s h req g,
  Invariant s -> findRequest h (pending s) = Some req ->
  loadId req = currentLoadId s ->
  attached (step f s (LoadSuccess h g)) = [h] /\
  planetRef (step f s (LoadSuccess h g)) = Some h.
Proof.
  intros f s h req g HI Hf E.
  destruct (findRequest_In _ _ _ Hf) as [Hin Hh].
  destruct (current_request_pending s req HI Hin E) as (_ & _ & _ & cs & Es & Hcs).
  simpl. unfold resolve. rewrite Hf. unfold onLoad. simpl currentLoadId.
  rewrite E, Nat.eqb_refl. simpl negb. cbv iota.
  destruct (normalize _ g) as [planet n']. simpl. rewrite Es.
  unfold attach; simpl. rewrite Es. unfold attached; simpl.
  rewrite attachedPlanets_sceneAdd, Hcs. subst h. auto.
Qed.

(** X4.  The cleanup of the component is partial.  It releases the displayed
    model but leaves it attached and referenced, leaves the pending requests
    and the load state alone, and stops only the resize handling: a second
    cleanup and later resizes do nothing, while frames keep running and a
    result that arrives afterwards for the current request is still attached
    to the scene. *)
Theorem cleanup_is_partial : forall f s,
  reachable f s ->
  let t := step f s Unmount in
  sceneRef t = sceneRef s /\ planetRef t = planetRef s /\
  pending t = pending s /\ loadState t = loadState s /\
  (resizeListening s = true ->
   released t = released s ++
                match planetRef s with
                | Some r => fst (disposeObject3D (heap s r))
                | None => []
                end) /\
  step f t Unmount = t /\ (forall c, step f t (Resize c) = t) /\
  (initialized s = true -> frames (step f t Frame) = S (frames t)) /\
  (forall h req g, findRequest h (pending s) = Some req ->
     loadId req = currentLoadId s ->
     attached (step f (step f s Unmount) (LoadSuccess h g)) = [h]).
Proof.
  intros f s Hr t.
  assert (Ht : Invariant t) by (apply Invariant_step; now apply Invariant_reachable with f).
  assert (E : sceneRef t = sceneRef s /\ planetRef t = planetRef s /\
              pending t = pending s /\ loadState t = loadState s /\
              initialized t = initialized s /\ resizeListening t = false /\
              currentLoadId t = currentLoadId s).
  { unfold t; simpl; unfold cleanup, loadState.
    destruct (resizeListening s) eqn:El; simpl; [|now rewrite El].
    destruct (planetRef s) eqn:Ep; simpl; rewrite ?Ep; auto 10. }
  destruct E as (E1 & E2 & E3 & E4 & E5 & E6 & E7).
  split; [exact E1|]. split; [exact E2|]. split; [exact E3|]. split; [exact E4|].
  split; [|split; [|split; [|split]]].
  - intros El. unfold t; simpl; unfold cleanup. rewrite El. simpl.
    destruct (planetRef s); simpl; [reflexivity | now rewrite app_nil_r].
  - simpl. unfold cleanup. now rewrite E6.
  - intros c. simpl. now rewrite E6.
  - intros Hi. simpl. rewrite E5, Hi. unfold animate, animateBy.
    destruct (planetRef t); reflexivity.
  - intros h req g Hf Hc. fold t.
    apply (onLoad_current_attaches f t h req g Ht); [now rewrite E3 | now rewrite E7].
Qed.

Lemma cleanup_is_partial_witness :
  let s := run noRotation initialViewer sunThenVenus in
  reachable noRotation s /\
  findRequest 1 (pending s) = Some (mkRequest 1 2 "/models/venus.glb") /\
  attached (step noRotation (step noRotation s Unmount) (LoadSuccess 1 ringed)) = [1%nat].
Proof.
  intros s.
  assert (H : reachable noRotation s) by (unfold s; session).
  assert (Hf : findRequest 1 (pending s) = Some (mkRequest 1 2 "/models/venus.glb"))
    by reflexivity.
  destruct (cleanup_is_partial noRotation s H) as (_ & _ & _ & _ & _ & _ & _ & _ & L).
  split; [exact H|]. split; [exact Hf|].
  exact (L 1%nat _ ringed Hf eq_refl).
Defined.

(** X5.  The menu buttons keep their listeners after the cleanup, so a
    request can follow it: the displayed model, released by the cleanup, is
    then released a second time by [loadPlanet]. *)
Theorem released_twice_after_cleanup : forall f s r path,
  reachableParsed f s -> resizeListening s = true -> planetRef s = Some r ->
  released (loadPlanet path (cleanup s)) =
  released s ++ references (heap s r) ++ references (heap s r).
Proof.
  intros f s r path Hr El Hp.
  pose proof (Disposable_reachableParsed f s Hr r Hp) as D.
  apply reachableParsed_reachable, Invariant_reachable in Hr.
  destruct Hr as [_ I2 _ _ _].
  destruct (sceneRef s) as [cs|] eqn:Es;
    [|destruct (I2 eq_refl) as [Hq _]; congruence].
  unfold cleanup. rewrite El. simpl. rewrite Hp.
  unfold loadPlanet; simpl. rewrite Es. unfold removePrevious; simpl.
  rewrite Hp, Es; simpl.
  rewrite (disposeObject3D_disposable _ D). simpl. now rewrite <- app_assoc.
Qed.

Lemma released_twice_after_cleanup_witness :
  let s := run noRotation initialViewer sunShown in
  reachableParsed noRotation s /\
  released (loadPlanet "/models/venus.glb" (cleanup s)) =
  released s ++ references (heap s 0%nat) ++ references (heap s 0%nat).
Proof.
  intros s.
  assert (H : reachableParsed noRotation s) by (unfold s; parsed_session).
  split; [exact H|].
  exact (released_twice_after_cleanup noRotation s 0 _ H eq_refl eq_refl).
Defined.

(** ** When disposal throws inside loadPlanet *)

Lemma Jammed_same : forall r s s',
  sceneRef s' = sceneRef s -> planetRef s' = planetRef s ->
  currentLoadId s' = currentLoadId s -> pending s' = pending s ->
  loading s' = loading s ->
  disposable (heap s' r) = disposable (heap s r) ->
  Jammed r s -> Jammed r s'.
Proof.
  unfold Jammed, attached; intros r s s' Hs Hp Hc Hq Hl Hh (K1 & K2 & K3 & K4 & K5).
  rewrite Hs, Hp, Hc, Hq, Hl, Hh. auto.
Qed.

Lemma Jammed_animateBy : forall f dy r s, Jammed r s -> Jammed r (animateBy f dy s).
Proof.
  intros f dy r s J. pose proof J as (_ & Hr & _).
  apply Jammed_same with s; auto; unfold animateBy; rewrite Hr; simpl; auto.
  unfold heapStore. rewrite Nat.eqb_refl. apply disposable_rotateY.
Qed.

Lemma Jammed_step : forall f r s e, Jammed r s -> Jammed r (step f s e).
Proof.
  intros f r s e J. pose proof J as (K1 & Hr & Hd & K3 & L).
  assert (Stale : forall h req, findRequest h (pending s) = Some req ->
            Nat.eqb (loadId req) (currentLoadId s) = false).
  { intros h req Ef. destruct (findRequest_In _ _ _ Ef) as [Hin _].
    apply Nat.eqb_neq. rewrite Forall_forall in K3. specialize (K3 req Hin). lia. }
  destruct e as [w h| |path|h g|h err| |c]; simpl.
  - unfold mount. destruct (initialized s); [exact J|].
    apply Jammed_animateBy. unfold Jammed, attached; simpl. auto.
  - unfold cleanup. destruct (resizeListening s); [|exact J].
    apply Jammed_same with s; auto; simpl; rewrite Hr; simpl; auto.
  - unfold loadPlanet. destruct (sceneRef s) as [cs|] eqn:Es; [|exact J].
    unfold removePrevious; simpl. rewrite Hr, Es; simpl.
    unfold attached in K1. rewrite Es in K1.
    destruct (disposeObject3D (heap s r)) as [log [|]] eqn:Ed.
    + assert (C : disposable (heap s r) = true)
        by (apply disposeObject3D_completed; now rewrite Ed).
      congruence.
    + unfold Jammed, attached; simpl.
      rewrite attachedPlanets_sceneRemove, K1. repeat split; auto.
      eapply Forall_impl; [|exact K3]. simpl; intros a Ha. lia.
  - unfold resolve. destruct (findRequest h (pending s)) as [req|] eqn:Ef; [|exact J].
    unfold onLoad; simpl. rewrite (Stale h req Ef); simpl.
    unfold Jammed, attached in *; simpl. repeat split; auto.
    now apply dropRequest_Forall.
  - unfold resolve. destruct (findRequest h (pending s)) as [req|] eqn:Ef; [|exact J].
    unfold onError; simpl. rewrite (Stale h req Ef); simpl.
    unfold Jammed, attached in *; simpl. repeat split; auto.
    now apply dropRequest_Forall.
  - destruct (initialized s); [now apply Jammed_animateBy | exact J].
  - destruct (resizeListening s); [|exact J].
    destruct c as [[w h]|]; [now apply Jammed_same with s | exact J].
Qed.

Lemma Jammed_run : forall f r es s, Jammed r s -> Jammed r (run f s es).
Proof.
  intros f r es; induction es as [|e es IH]; intros s J; simpl; [exact J|].
  apply IH. now apply Jammed_step.
Qed.

(** X6.  If [disposeObject3D] throws on the displayed model inside
    [loadPlanet], the call stops there: the model is off the scene but
    [planetRef] still points to it, the identifier is taken, the loading flag
    is on and no load is issued.  From then on, whatever happens, no planet is
    attached again and the loading flag stays on: every later [loadPlanet]
    throws at the same place. *)
Theorem loadPlanet_jams_when_disposal_throws : forall f s r path,
  reachable f s -> planetRef s = Some r ->
  snd (disposeObject3D (heap s r)) = TypeError ->
  let t := loadPlanet path s in
  pending t = pending s /\ currentLoadId t = S (currentLoadId s) /\
  released t = released s ++ fst (disposeObject3D (heap s r)) /\
  forall es, attached (run f t es) = [] /\ loading (run f t es) = true /\
             planetRef (run f t es) = Some r.
Proof.
  intros f s r path Hr Hp Hd t. apply Invariant_reachable in Hr.
  destruct Hr as [_ I2 I5 _ IM].
  destruct (sceneRef s) as [cs|] eqn:Es;
    [|destruct (I2 eq_refl) as [Hq _]; congruence].
  assert (Et : t = set_released (released s ++ fst (disposeObject3D (heap s r)))
                 (set_sceneRef (Some (sceneRemove (Planet r) cs))
                    (set_currentLoadId (S (currentLoadId s)) (setLoading true s)))).
  { unfold t, loadPlanet. rewrite Es. unfold removePrevious; simpl.
    rewrite Hp, Es; simpl.
    destruct (disposeObject3D (heap s r)) as [log o]; simpl in *. now subst o. }
  assert (Hnd : disposable (heap s r) = false).
  { destruct (disposable (heap s r)) eqn:E; [|reflexivity].
    apply disposeObject3D_completed in E. congruence. }
  assert (J : Jammed r t).
  { rewrite Et. unfold Jammed, attached; simpl.
    rewrite attachedPlanets_sceneRemove. repeat split; auto.
    - apply removeFirst_at_most_one.
      destruct IM as [(N1 & _)|(K1 & _)]; unfold attached, displayed in *;
        rewrite Es in *; rewrite ?Hp in *; auto.
    - eapply Forall_impl; [|exact I5]. simpl; intros a (A & B & C). lia. }
  split; [now rewrite Et|]. split; [now rewrite Et|]. split; [now rewrite Et|].
  intros es. destruct (Jammed_run f r es t J) as (K1 & K2 & _ & _ & K5). auto.
Qed.

Lemma loadPlanet_jams_when_disposal_throws_witness :
  let s := run noRotation initialViewer arrayShown in
  let t := loadPlanet "/models/earth.glb" s in
  reachable noRotation s /\ planetRef s = Some 0%nat /\
  snd (disposeObject3D (heap s 0%nat)) = TypeError /\
  forall es, attached (run noRotation t es) = [] /\
             loading (run noRotation t es) = true /\
             planetRef (run noRotation t es) = Some 0%nat.
Proof.
  intros s t.
  assert (H : reachable noRotation s) by (unfold s; session).
  assert (Hp : planetRef s = Some 0%nat) by reflexivity.
  assert (Hd : snd (disposeObject3D (heap s 0%nat)) = TypeError) by reflexivity.
  destruct (loadPlanet_jams_when_disposal_throws noRotation s 0
              "/models/earth.glb" H Hp Hd) as (_ & _ & _ & L).
  split; [exact H|]. split; [exact Hp|]. split; [exact Hd | exact L].
Defined.

(** ** More on disposal *)

Lemma releasedPrefix_done : releasedPrefix done [].
Proof. exists []. split; [reflexivity | tauto]. Qed.

Lemma releasedPrefix_andThen : forall a b la lb,
  releasedPrefix a la -> releasedPrefix b lb ->
  releasedPrefix (a ;; b) (la ++ lb).
Proof.
  intros [xa oa] [xb ob] la lb (ra & Ea & Ca) (rb & Eb & Cb); simpl in *.
  unfold andThen; simpl. destruct oa; simpl.
  - assert (ra = []) by (apply Ca; reflexivity). subst ra la lb.
    exists rb. rewrite app_nil_r, app_assoc. split; [reflexivity | exact Cb].
  - exists (ra ++ lb). subst la. rewrite app_assoc. split; [reflexivity|].
    split; [discriminate|]. intros E. apply app_eq_nil in E. destruct E as [E _].
    apply Ca in E. discriminate.
Qed.

Lemma releasedPrefix_forEach : forall (A : Type) (f : A -> Trace)
  (g : A -> list Resource) l,
  (forall a, releasedPrefix (f a) (g a)) ->
  releasedPrefix (forEach f l) (flat_map g l).
Proof.
  intros A f g l H; induction l as [|a l IH]; simpl.
  - exact releasedPrefix_done.
  - change (forEach f (a :: l)) with (f a ;; forEach f l).
    now apply releasedPrefix_andThen.
Qed.

Lemma releasedPrefix_material : forall m,
  releasedPrefix (disposeMaterial m) (materialReferences m).
Proof.
  intros [m|]; [|exact releasedPrefix_done].
  unfold disposeMaterial, materialReferences. destruct (map m); simpl.
  - exists []. split; [reflexivity | tauto].
  - exists []. split; [reflexivity | tauto].
  - exists [MaterialRes (mat_id m)]. split; [reflexivity|].
    split; discriminate.
Qed.

Lemma disposeObject3D_prefix : forall obj,
  releasedPrefix (disposeObject3D obj) (references obj).
Proof.
  intros obj. unfold disposeObject3D, references. rewrite traverse_nodes.
  apply releasedPrefix_forEach. intros o. unfold disposeChild, meshReferences.
  destruct (isMesh o); [|exact releasedPrefix_done].
  apply releasedPrefix_andThen.
  - destruct (geometry o); simpl; [|exact releasedPrefix_done].
    exists []. split; [reflexivity | tauto].
  - apply releasedPrefix_forEach. exact releasedPrefix_material.
Qed.

(** X7.  Whatever the node, [disposeObject3D] releases an initial segment of
    the references of its meshes, in visiting order: the whole list when it
    completes, a proper part when it throws.  Objects that are not meshes
    (groups, lights, lines) contribute nothing. *)
Theorem disposeObject3D_releases_prefix : forall obj,
  releasedPrefix (disposeObject3D obj) (references obj) /\
  (forall r, In r (fst (disposeObject3D obj)) ->
   exists o, In o (nodes obj) /\ isMesh o = true /\ In r (meshReferences o)).
Proof.
  intros obj. pose proof (disposeObject3D_prefix obj) as P.
  split; [exact P|]. intros r Hr. destruct P as (rest & E & _).
  assert (Hin : In r (references obj)) by (rewrite E; apply in_or_app; now left).
  unfold references in Hin. apply in_flat_map in Hin.
  destruct Hin as (o & Ho & Hro). exists o. split; [exact Ho|].
  unfold meshReferences in Hro |- *. destruct (isMesh o); [auto | destruct Hro].
Qed.

Lemma vanilla_entry_total : forall ms,
  forallb (fun m : option Material =>
             match m with Some _ => true | None => false end) ms = true ->
  forEach Vanilla.disposeEntry ms = (flat_map vanillaEntry ms, Completed).
Proof.
  intros ms H. apply forEach_total. rewrite forallb_forall in H.
  apply Forall_forall. intros [m|] Hm; [reflexivity|].
  specialize (H None Hm). discriminate.
Qed.

Lemma vanilla_entry_throws : forall ms,
  forallb (fun m : option Material =>
             match m with Some _ => true | None => false end) ms = false ->
  snd (forEach Vanilla.disposeEntry ms) = TypeError.
Proof.
  induction ms as [|[m|] ms IH]; simpl; intros H; try discriminate.
  - change (forEach Vanilla.disposeEntry (Some m :: ms))
      with (Vanilla.disposeEntry (Some m) ;; forEach Vanilla.disposeEntry ms).
    unfold andThen; simpl. now apply IH.
  - reflexivity.
Qed.

(** X8.  The inline disposal of the vanilla script completes exactly when no
    material array of the tree has an absent entry.  It then has released, in
    visiting order, the geometry of every object that has one, mesh or not,
    and every material once per slot, and no texture. *)
Theorem vanilla_dispose_releases : forall obj,
  (snd (Vanilla.dispose obj) = Completed <-> fullArrays obj = true) /\
  (fullArrays obj = true ->
   fst (Vanilla.dispose obj) = flat_map vanillaReferences (nodes obj)).
Proof.
  intros obj.
  assert (Ok : forall o,
            match material o with
            | MaterialArray ms =>
                forallb (fun m : option Material =>
                           match m with Some _ => true | None => false end) ms
            | _ => true
            end = true ->
            Vanilla.disposeChild o = (vanillaReferences o, Completed)).
  { intros o H. unfold Vanilla.disposeChild, vanillaReferences.
    destruct (material o) as [|m|ms].
    - destruct (geometry o); simpl; unfold andThen; simpl;
        rewrite ?app_nil_r; reflexivity.
    - destruct (geometry o); reflexivity.
    - rewrite (vanilla_entry_total ms H). destruct (geometry o); reflexivity. }
  assert (Total : fullArrays obj = true ->
            Vanilla.dispose obj = (flat_map vanillaReferences (nodes obj), Completed)).
  { intros H. unfold Vanilla.dispose. rewrite traverse_nodes.
    apply forEach_total. unfold fullArrays in H. rewrite forallb_forall in H.
    apply Forall_forall. intros o Ho. apply Ok. exact (H o Ho). }
  split; [split|].
  - intros C. unfold Vanilla.dispose in C.
    rewrite traverse_nodes, forEach_completed, Forall_forall in C.
    unfold fullArrays. apply forallb_forall. intros o Ho. specialize (C o Ho).
    unfold Vanilla.disposeChild in C. apply andThen_completed in C.
    destruct C as [_ C]. destruct (material o) as [|m|ms]; try reflexivity.
    destruct (forallb _ ms) eqn:E; [reflexivity|].
    rewrite (vanilla_entry_throws ms E) in C. discriminate.
  - intros H. now rewrite Total.
  - intros H. now rewrite Total.
Qed.

Lemma vanilla_dispose_releases_witness :
  fullArrays orbitLine = true /\
  fst (Vanilla.dispose orbitLine) =
  [ GeometryRes (Parsed 8); MaterialRes (Parsed 3);
    GeometryRes (Parsed 9); MaterialRes (Parsed 1) ] /\
  fst (disposeObject3D orbitLine) =
  [ GeometryRes (Parsed 9); TextureRes (Parsed 2); MaterialRes (Parsed 1) ].
Proof.
  assert (H : fullArrays orbitLine = true) by reflexivity.
  destruct (vanilla_dispose_releases orbitLine) as [_ R].
  split; [exact H|]. split; [exact (R H) | reflexivity].
Defined.

(** ** More on centerAndFit *)

Lemma ordered_expandByPoint : forall b p, ordered b -> ordered (Box3.expandByPoint b p).
Proof.
  intros [[lo hi]|] p H; simpl in *.
  - destruct H as (H1 & H2 & H3). repeat split; simpl;
      (eapply Qle_trans; [apply Q.le_min_l|]);
      (eapply Qle_trans; [|apply Q.le_max_l]); assumption.
  - repeat split; apply Qle_refl.
Qed.

Lemma ordered_setFromPoints : forall ps, ordered (Box3.setFromPoints ps).
Proof.
  intros ps. unfold Box3.setFromPoints.
  assert (H : forall b, ordered b -> ordered (fold_left Box3.expandByPoint ps b)).
  { induction ps as [|p ps IH]; intros b Hb; simpl; [exact Hb|].
    apply IH. now apply ordered_expandByPoint. }
  apply H. exact I.
Qed.

Lemma ordered_union : forall a b, ordered a -> ordered b -> ordered (Box3.union a b).
Proof.
  intros [[la ha]|] [[lb hb]|] Ha Hb; simpl in *; auto.
  destruct Ha as (A1 & A2 & A3). repeat split; simpl;
    (eapply Qle_trans; [apply Q.le_min_l|]);
    (eapply Qle_trans; [|apply Q.le_max_l]); assumption.
Qed.

Lemma ordered_applyMatrix4 : forall b m, ordered (Box3.applyMatrix4 b m).
Proof.
  intros [[lo hi]|] m; [|exact I].
  unfold Box3.applyMatrix4. apply ordered_setFromPoints.
Qed.

Lemma ordered_expandByObject : forall o parent b,
  ordered b -> ordered (expandByObject parent b o).
Proof.
  induction o as [ms p r q sc g mt cs IH] using Object3D_tree_ind.
  intros parent b Hb. simpl.
  set (w := updateWorldMatrix parent _).
  assert (Hg : ordered match g with
                       | Some g0 => Box3.union b (Box3.applyMatrix4 (computeBoundingBox g0) w)
                       | None => b
                       end).
  { destruct g; [|exact Hb]. apply ordered_union; [exact Hb|].
    apply ordered_applyMatrix4. }
  revert Hg. generalize (match g with
                         | Some g0 => Box3.union b (Box3.applyMatrix4 (computeBoundingBox g0) w)
                         | None => b
                         end).
  induction IH as [|c cs Hc Hcs IHcs]; intros a Ha; simpl; [exact Ha|].
  apply IHcs. now apply Hc.
Qed.

Lemma ordered_setFromObject : forall o, ordered (setFromObject o).
Proof. intros o. apply ordered_expandByObject. exact I. Qed.

Lemma boxSize_nonneg : forall o,
  0 <= Vector3.x (boxSize o) /\ 0 <= Vector3.y (boxSize o) /\
  0 <= Vector3.z (boxSize o).
Proof.
  intros o. unfold boxSize. pose proof (ordered_setFromObject o) as H.
  destruct (setFromObject o) as [[lo hi]|]; simpl in *.
  - destruct H as (H1 & H2 & H3). repeat split; lra.
  - repeat split; apply Qle_refl.
Qed.

Lemma maxDimOf_bounds : forall v,
  Vector3.x v <= maxDimOf v /\ Vector3.y v <= maxDimOf v /\
  Vector3.z v <= maxDimOf v.
Proof.
  intros v. unfold maxDimOf. repeat split.
  - eapply Qle_trans; [apply Q.le_max_l|]. apply Q.le_max_l.
  - eapply Qle_trans; [apply Q.le_max_r|]. apply Q.le_max_l.
  - apply Q.le_max_r.
Qed.

(** X9.  The largest dimension that [centerAndFit] computes is never
    negative, so its test [maxDim > 0] fails exactly when the box has no
    extent: then, and in particular for a scene without any geometry, the
    scale is set to 1 and, without geometry, the position is kept. *)
Theorem maxDim_never_negative : forall o,
  0 <= maxDimension o /\
  (~ 0 < maxDimension o <-> maxDimension o == 0) /\
  (setFromObject o = None ->
   maxDimension o == 0 /\ position (centerAndFit o) =v= position o /\
   scale (centerAndFit o) = Vector3.setScalar 1).
Proof.
  intros o.
  assert (H0 : 0 <= maxDimension o).
  { destruct (boxSize_nonneg o) as (H1 & _).
    destruct (maxDimOf_bounds (boxSize o)) as (B1 & _).
    unfold maxDimension. fold (boxSize o). lra. }
  split; [exact H0|]. split.
  - split; intros H; [|rewrite H; intros C; discriminate].
    apply Qle_antisym; [|exact H0]. now apply Qnot_lt_le.
  - intros E. unfold centerAndFit, maxDimension. rewrite E. simpl.
    repeat split; simpl; try reflexivity; ring.
Qed.

Lemma maxDim_never_negative_witness :
  maxDimension (Group []) == 0 /\
  scale (centerAndFit (Group [])) = Vector3.setScalar 1.
Proof.
  destruct (maxDim_never_negative (Group [])) as (_ & _ & H).
  destruct (H eq_refl) as (H1 & _ & H3). split; [exact H1 | exact H3].
Defined.

Lemma maxDimension_centerAndFit : forall o,
  0 < maxDimension o -> unitScale o ->
  maxDimension (centerAndFit o) == targetSize.
Proof.
  intros o Hd Hu. pose proof (centerAndFit_box o Hu) as Hb; simpl in Hb.
  apply similarBox_getSize in Hb.
  apply (maxDimOf_scale _ _ _ (fitScale_nonneg _)) in Hb.
  unfold maxDimension at 1. rewrite Hb. fold (maxDimension o).
  rewrite fitScale_positive by exact Hd.
  field. intros E. rewrite E in Hd. discriminate.
Qed.

(** X10.  After [centerAndFit] a model with extent, on a root of scale 1,
    fits the cube of side 1.5: its width, height and depth all lie between 0
    and 1.5. *)
Theorem centerAndFit_fits_cube : forall o,
  0 < maxDimension o -> unitScale o ->
  let size := boxSize (centerAndFit o) in
  0 <= Vector3.x size <= targetSize /\ 0 <= Vector3.y size <= targetSize /\
  0 <= Vector3.z size <= targetSize.
Proof.
  intros o Hd Hu size.
  pose proof (maxDimension_centerAndFit o Hd Hu) as Hm.
  destruct (boxSize_nonneg (centerAndFit o)) as (N1 & N2 & N3).
  destruct (maxDimOf_bounds size) as (B1 & B2 & B3).
  unfold maxDimension in Hm. fold (boxSize (centerAndFit o)) in Hm. fold size in Hm.
  fold size in N1, N2, N3. repeat split; try assumption; lra.
Qed.

Lemma centerAndFit_fits_cube_witness :
  let size := boxSize (centerAndFit offCentre) in
  0 <= Vector3.x size <= targetSize /\ 0 <= Vector3.y size <= targetSize /\
  0 <= Vector3.z size <= targetSize.
Proof.
  apply centerAndFit_fits_cube.
  - vm_compute; reflexivity.
  - repeat split; reflexivity.
Defined.

Lemma Vector3_scaled_zero : forall v s,
  Vector3.multiplyScalar v s =v= Vector3.zero <->
  s == 0 \/ v =v= Vector3.zero.
Proof.
  intros [x y z] s. unfold Vector3.eq, Vector3.multiplyScalar; simpl. split.
  - intros (H1 & H2 & H3). destruct (Qeq_dec s 0) as [E|N]; [now left|right].
    repeat split.
    + destruct (Qmult_integral _ _ H1); tauto.
    + destruct (Qmult_integral _ _ H2); tauto.
    + destruct (Qmult_integral _ _ H3); tauto.
  - intros [E|(H1 & H2 & H3)].
    + rewrite E. repeat split; ring.
    + rewrite H1, H2, H3. repeat split; ring.
Qed.

(** X11.  On a root of scale 1 with a non-empty box, [centerAndFit] leaves the
    box centred at the origin exactly when the fit factor is 1 or the box was
    centred on the root's position before the call. *)
Theorem centerAndFit_centred_iff : forall o,
  unitScale o -> setFromObject o <> None ->
  (boxCenter (centerAndFit o) =v= Vector3.zero <->
   fitScale (maxDimension o) == 1 \/ boxCenter o =v= position o).
Proof.
  intros o Hu Hne. pose proof (centerAndFit_centre o Hu Hne) as C.
  assert (S1 : forall s, s - 1 == 0 <-> s == 1) by (intros s; split; intros H; lra).
  assert (S2 : Vector3.sub (boxCenter o) (position o) =v= Vector3.zero <->
               boxCenter o =v= position o).
  { unfold Vector3.eq, Vector3.sub; simpl. split; intros (H1 & H2 & H3);
      repeat split; lra. }
  rewrite <- S1, <- S2, <- Vector3_scaled_zero.
  split; intros H.
  - eapply Vector3_eq_trans; [apply Vector3_eq_sym; exact C | exact H].
  - eapply Vector3_eq_trans; [exact C | exact H].
Qed.

Lemma centerAndFit_centred_iff_witness :
  ~ boxCenter (centerAndFit offCentre) =v= Vector3.zero /\
  ~ (fitScale (maxDimension offCentre) == 1 \/
     boxCenter offCentre =v= position offCentre).
Proof.
  assert (Hu : unitScale offCentre) by (repeat split; reflexivity).
  assert (Hne : setFromObject offCentre <> None) by (vm_compute; discriminate).
  assert (N : ~ (fitScale (maxDimension offCentre) == 1 \/
                 boxCenter offCentre =v= position offCentre)).
  { intros [E|(E & _)]; vm_compute in E; discriminate. }
  split; [|exact N].
  intros C. apply N. exact (proj1 (centerAndFit_centred_iff offCentre Hu Hne) C).
Defined.

(** ** More on the material replacement *)

Lemma position_replaceMaterials : forall n o,
  position (fst (replaceMaterials n o)) = position o /\
  scale (fst (replaceMaterials n o)) = scale o.
Proof.
  intros n o. rewrite replaceMaterials_unfold.
  destruct (replaceChild n o) as [m' n1].
  destruct (replaceAll (children o) n1) as [cs' n2]. split; reflexivity.
Qed.

Lemma expandByObject_replaceMaterials : forall o n parent b,
  expandByObject parent b (fst (replaceMaterials n o)) = expandByObject parent b o.
Proof.
  induction o as [ms p r q sc g mt cs IH] using Object3D_tree_ind.
  intros n parent b. rewrite replaceMaterials_unfold.
  destruct (replaceChild n (mkObject3D ms p r q sc g mt cs)) as [m' n1].
  simpl children.
  assert (L : forall k w a,
             fold_left (expandByObject w) (fst (replaceAll cs k)) a =
             fold_left (expandByObject w) cs a).
  { clear - IH. induction IH as [|c cs Hc Hcs IHcs]; intros k w a; simpl;
      [reflexivity|].
    specialize (Hc k w a). destruct (replaceMaterials k c) as [c' k1].
    specialize (IHcs k1 w). destruct (replaceAll cs k1) as [l'' k2].
    simpl in *. rewrite Hc. apply IHcs. }
  specialize (L n1). destruct (replaceAll cs n1) as [cs' n2].
  simpl in *. apply L.
Qed.

Lemma replaceMaterials_set_position_scale : forall n o p s,
  replaceMaterials n (set_position_scale o p s) =
  (set_position_scale (fst (replaceMaterials n o)) p s,
   snd (replaceMaterials n o)).
Proof.
  intros n [ms p0 r q sc g mt cs] p s. rewrite !replaceMaterials_unfold.
  unfold replaceChild, set_position_scale; simpl.
  destruct ms; destruct (replaceAll cs _); reflexivity.
Qed.

(** X12.  The material traversal and [centerAndFit] commute: the bounding box
    that [centerAndFit] measures does not depend on materials, so the success
    callback would store the same root and allocate the same materials if it
    fitted the model before replacing the materials. *)
Theorem normalize_commutes : forall n g,
  setFromObject (fst (replaceMaterials n g)) = setFromObject g /\
  normalize n g = replaceMaterials n (centerAndFit g).
Proof.
  intros n g.
  assert (B : setFromObject (fst (replaceMaterials n g)) = setFromObject g)
    by apply expandByObject_replaceMaterials.
  split; [exact B|].
  unfold normalize.
  destruct (position_replaceMaterials n g) as (P & _).
  unfold centerAndFit at 2. rewrite replaceMaterials_set_position_scale.
  destruct (replaceMaterials n g) as [planet n']; simpl in *.
  unfold centerAndFit. rewrite B, P. reflexivity.
Qed.

Lemma references_root : forall o o',
  isMesh o' = isMesh o -> geometry o' = geometry o -> material o' = material o ->
  children o' = children o -> references o' = references o.
Proof.
  intros [m p r q s g mt cs] [m' p' r' q' s' g' mt' cs']; simpl.
  intros -> -> -> ->. reflexivity.
Qed.

Lemma created_materials : forall o n,
  snd (replaceMaterials n o) = (n + meshCount o)%nat /\
  filter isMaterialRes (references (fst (replaceMaterials n o))) =
  createdMaterials n (meshCount o).
Proof.
  induction o as [ms p r q sc g mt cs IH] using Object3D_tree_ind; intros n.
  assert (L : forall k,
             snd (replaceAll cs k) =
             (k + List.length (filter isMesh (flat_map nodes cs)))%nat /\
             filter isMaterialRes
               (flat_map meshReferences (flat_map nodes (fst (replaceAll cs k)))) =
             createdMaterials k (List.length (filter isMesh (flat_map nodes cs)))).
  { clear - IH. induction IH as [|c cs Hc Hcs IHcs]; intros k; simpl.
    - split; [lia | reflexivity].
    - destruct (Hc k) as (C1 & C2). unfold references in C2.
      destruct (replaceMaterials k c) as [c' k1]. simpl in C1, C2.
      destruct (IHcs k1) as (D1 & D2).
      destruct (replaceAll cs k1) as [l'' k2]. simpl in D1, D2 |- *.
      rewrite filter_app, length_app, flat_map_app, filter_app.
      fold (meshCount c). split; [lia|].
      rewrite C2, D2. unfold createdMaterials.
      rewrite seq_app, map_app, C1. reflexivity. }
  rewrite replaceMaterials_unfold. unfold replaceChild. simpl isMesh.
  simpl children. simpl material. unfold meshCount, references. simpl nodes.
  destruct ms.
  - destruct (L (S n)) as (D1 & D2).
    destruct (replaceAll cs (S n)) as [cs' n2]. simpl in D1, D2 |- *.
    split; [lia|].
    rewrite filter_app, D2. unfold createdMaterials, meshReferences.
    destruct g; destruct (markSRGB (keptMap mt)); reflexivity.
  - destruct (L n) as (D1 & D2).
    destruct (replaceAll cs n) as [cs' n2]. simpl in D1, D2 |- *.
    split; [lia | exact D2].
Qed.

Lemma timesReleased_material : forall id l,
  timesReleased (MaterialRes id) l =
  timesReleased (MaterialRes id) (filter isMaterialRes l).
Proof.
  intros id l. unfold timesReleased. induction l as [|r l IH]; [reflexivity|].
  destruct r as [i|i|i]; simpl.
  - destruct (Resource_eq_dec (GeometryRes i) (MaterialRes id)); [discriminate|].
    exact IH.
  - destruct (Resource_eq_dec (MaterialRes i) (MaterialRes id)); now rewrite IH.
  - destruct (Resource_eq_dec (TextureRes i) (MaterialRes id)); [discriminate|].
    exact IH.
Qed.

Lemma createdMaterials_In : forall n k r,
  In r (createdMaterials n k) <->
  exists i, r = MaterialRes (Created i) /\ (n <= i < n + k)%nat.
Proof.
  intros n k r. unfold createdMaterials. rewrite in_map_iff. split.
  - intros (i & <- & Hi). apply in_seq in Hi. now exists i.
  - intros (i & -> & Hi). exists i. split; [reflexivity | now apply in_seq].
Qed.

Lemma createdMaterials_NoDup : forall k n, NoDup (createdMaterials n k).
Proof.
  induction k as [|k IH]; intros n; [constructor|].
  change (createdMaterials n (S k))
    with (MaterialRes (Created n) :: createdMaterials (S n) k).
  constructor; [|apply IH].
  intros H. apply createdMaterials_In in H. destruct H as (i & E & Hi).
  inversion E. lia.
Qed.

(** X13.  The root that the success callback stores owns its materials: its
    meshes carry the materials created during the traversal, one per mesh
    with consecutive identifiers, each referenced by exactly one mesh.  So
    disposing of the displayed model releases no material twice and never a
    material of the file, which stay unreleased; and the model of a file as
    the loader parses it has each of its materials released exactly once. *)
Theorem normalize_owns_materials : forall n g,
  let planet := fst (normalize n g) in
  let log := fst (disposeObject3D planet) in
  snd (normalize n g) = (n + meshCount g)%nat /\
  filter isMaterialRes (references planet) = createdMaterials n (meshCount g) /\
  (forall id, (timesReleased (MaterialRes id) log <= 1)%nat) /\
  (forall k, timesReleased (MaterialRes (Parsed k)) log = 0%nat) /\
  (parsedScene g = true ->
   forall i, (n <= i < n + meshCount g)%nat ->
             timesReleased (MaterialRes (Created i)) log = 1%nat).
Proof.
  intros n g planet log.
  destruct (created_materials g n) as (C1 & C2).
  assert (R : references planet = references (fst (replaceMaterials n g))).
  { unfold planet. rewrite normalize_fst.
    destruct (fst (replaceMaterials n g)); reflexivity. }
  assert (S1 : snd (normalize n g) = snd (replaceMaterials n g)).
  { unfold normalize. now destruct (replaceMaterials n g). }
  assert (W : forall id, (timesReleased (MaterialRes id) (references planet) <= 1)%nat).
  { intros id. rewrite timesReleased_material, R, C2. unfold timesReleased.
    apply NoDup_count_occ. apply createdMaterials_NoDup. }
  destruct (disposeObject3D_prefix planet) as (rest & E & Hrest).
  fold log in E.
  assert (Le : forall r, (timesReleased r log <= timesReleased r (references planet))%nat).
  { intros r. rewrite E. unfold timesReleased. rewrite count_occ_app. lia. }
  split; [now rewrite S1|]. split; [now rewrite R|]. split; [|split].
  - intros id. specialize (Le (MaterialRes id)). specialize (W id). lia.
  - intros k. specialize (Le (MaterialRes (Parsed k))).
    assert (Z : timesReleased (MaterialRes (Parsed k)) (references planet) = 0%nat).
    { rewrite timesReleased_material, R, C2. unfold timesReleased.
      apply count_occ_not_In. intros H. apply createdMaterials_In in H.
      destruct H as (i & H & _). discriminate. }
    lia.
  - intros Hp i Hi.
    assert (D : disposable planet = true).
    { unfold planet. rewrite normalize_fst, disposable_centerAndFit.
      now apply disposable_replaceMaterials. }
    unfold log. rewrite (disposeObject3D_disposable _ D). simpl.
    specialize (W (Created i)).
    assert (P : (1 <= timesReleased (MaterialRes (Created i)) (references planet))%nat).
    { rewrite timesReleased_material, R, C2. apply timesReleased_positive.
      apply createdMaterials_In. now exists i. }
    lia.
Qed.

Lemma normalize_owns_materials_witness :
  timesReleased (MaterialRes (Created 1))
    (fst (disposeObject3D (fst (normalize 0 ringed)))) = 1%nat.
Proof.
  destruct (normalize_owns_materials 0 ringed) as (_ & _ & _ & _ & H).
  apply (H eq_refl 1%nat). vm_compute. split; constructor. constructor.
Defined.

(** ** Frames *)

Lemma animate_displayed : forall f s r,
  planetRef s = Some r ->
  let t := animate f s in
  initialized t = initialized s /\ planetRef t = Some r /\
  heap t r = rotateY f 0.001 (heap s r) /\
  (forall r', r' <> r -> heap t r' = heap s r') /\
  frames t = S (frames s) /\ loadState t = loadState s /\
  sceneRef t = sceneRef s /\ released t = released s /\ pending t = pending s.
Proof.
  intros f s r H. unfold animate, animateBy, loadState. rewrite H. simpl.
  rewrite H. unfold heapStore. rewrite Nat.eqb_refl.
  repeat split. intros r' Hr. apply Nat.eqb_neq in Hr. now rewrite Hr.
Qed.

(** X14.  [n] frames in a row turn the displayed model by [n] times 0.001
    about its y axis, without wrapping the angle, and change nothing else of
    it: position, scale, the other two angles, geometry, materials and
    children stay, as do every other stored root, the scene, the load state
    and the released resources. *)
Theorem frames_accumulate : forall f n s r,
  initialized s = true -> planetRef s = Some r ->
  let t := run f s (repeat Frame n) in
  let o := heap s r in let o' := heap t r in
  Vector3.y (rotation o') == Vector3.y (rotation o) + inject_Z (Z.of_nat n) * 0.001 /\
  Vector3.x (rotation o') = Vector3.x (rotation o) /\
  Vector3.z (rotation o') = Vector3.z (rotation o) /\
  position o' = position o /\ scale o' = scale o /\
  isMesh o' = isMesh o /\ geometry o' = geometry o /\
  material o' = material o /\ children o' = children o /\
  (forall r', r' <> r -> heap t r' = heap s r') /\
  frames t = (frames s + n)%nat /\ loadState t = loadState s /\
  sceneRef t = sceneRef s /\ released t = released s /\ pending t = pending s.
Proof.
  intros f n. induction n as [|n IH]; intros s r Hi Hp.
  - simpl. rewrite Nat.add_0_r.
    repeat split; try reflexivity. unfold inject_Z; simpl. ring.
  - simpl repeat. unfold run. simpl fold_left. rewrite Hi.
    destruct (animate_displayed f s r Hp)
      as (A1 & A2 & A3 & A4 & A5 & A6 & A7 & A8 & A9).
    rewrite Hi in A1.
    specialize (IH (animate f s) r A1 A2). unfold run in IH. cbv zeta in IH.
    destruct IH as (I1 & I2 & I3 & I4 & I5 & I6 & I7 & I8 & I9 & I10 & I11 &
                    I12 & I13 & I14 & I15).
    cbv zeta. rewrite A3 in *. simpl in I1, I2, I3, I4, I5, I6, I7, I8, I9.
    repeat split; try congruence.
    + rewrite I1, Znat.Nat2Z.inj_succ. unfold Z.succ. rewrite inject_Z_plus.
      change (inject_Z 1) with 1. ring.
    + intros r' Hr. rewrite I10 by exact Hr. now apply A4.
    + rewrite I11, A5. lia.
Qed.

Lemma frames_accumulate_witness :
  let t := run noRotation (run noRotation initialViewer sunShown)
               (repeat Frame 1000) in
  Vector3.y (rotation (heap t 0%nat)) == 1 /\ frames t = 1001%nat.
Proof.
  pose proof (frames_accumulate noRotation 1000
                (run noRotation initialViewer sunShown) 0%nat
                eq_refl eq_refl) as H.
  cbv zeta in H. destruct H as (H1 & _ & _ & _ & _ & _ & _ & _ & _ & _ & H11 & _).
  split.
  - rewrite H1. vm_compute. reflexivity.
  - rewrite H11. reflexivity.
Defined.

(** ** The variant without load identifier *)

Lemma findRequest_handle : forall h l,
  In h (List.map handle l) ->
  exists req, findRequest h l = Some req /\ handle req = h.
Proof.
  intros h l; induction l as [|r l IH]; simpl; [tauto|].
  destruct (Nat.eqb (handle r) h) eqn:E.
  - intros _. exists r. apply Nat.eqb_eq in E. auto.
  - intros [H|H]; [apply Nat.eqb_neq in E; contradiction | auto].
Qed.

Lemma dropRequest_other : forall h h' l,
  h <> h' -> In h' (List.map handle l) ->
  In h' (List.map handle (dropRequest h l)).
Proof.
  intros h h' l Hne; induction l as [|r l IH]; simpl; [tauto|].
  destruct (Nat.eqb (handle r) h) eqn:E.
  - apply Nat.eqb_eq in E. intros [H|H]; [congruence | exact H].
  - simpl. intros [H|H]; auto.
Qed.

Lemma removeFirst_other : forall r x l, r <> x -> In x l -> In x (removeFirst r l).
Proof.
  intros r x l Hne; induction l as [|y l IH]; simpl; [tauto|].
  destruct (Nat.eqb r y) eqn:E.
  - apply Nat.eqb_eq in E. intros [H|H]; [congruence | exact H].
  - simpl. intros [H|H]; auto.
Qed.

Lemma unguarded_success : forall s cs h g,
  sceneRef s = Some cs -> In h (List.map handle (pending s)) ->
  let t := resolve h (fun req => Unguarded.onLoad req g) s in
  sceneRef t = Some (sceneAdd (Planet h) cs) /\ planetRef t = Some h /\
  heap t = heapStore (heap s) h (centerAndFit g) /\
  released t = released s /\ pending t = dropRequest h (pending s).
Proof.
  intros s cs h g Hs Hin. unfold resolve.
  destruct (findRequest_handle h _ Hin) as (req & -> & Hh).
  unfold Unguarded.onLoad, attach. simpl. rewrite Hs, Hh. simpl. auto.
Qed.

(** X15.  In the variant without load identifier (unnamed/part_000) two
    loads in flight both end up in the scene: the second success callback
    attaches its result next to the first, which [planetRef] no longer points
    to.  The next [loadPlanet] removes and disposes of the second result
    only; the first stays attached and none of its resources is released by
    that call. *)
Theorem unguarded_orphans_first : forall f s cs h1 h2 g1 g2 path,
  sceneRef s = Some cs -> h1 <> h2 ->
  In h1 (List.map handle (pending s)) -> In h2 (List.map handle (pending s)) ->
  let t := Unguarded.run f s [LoadSuccess h1 g1; LoadSuccess h2 g2] in
  let t' := Unguarded.loadPlanet path t in
  In h1 (attached t) /\ In h2 (attached t) /\ planetRef t = Some h2 /\
  heap t h1 = centerAndFit g1 /\ heap t h2 = centerAndFit g2 /\
  released t = released s /\
  In h1 (attached t') /\
  released t' = released s ++ fst (disposeObject3D (centerAndFit g2)).
Proof.
  intros f s cs h1 h2 g1 g2 path Hs Hne H1 H2. unfold Unguarded.run. simpl fold_left.
  unfold Unguarded.step.
  destruct (unguarded_success s cs h1 g1 Hs H1) as (A1 & A2 & A3 & A4 & A5).
  set (s1 := resolve h1 (fun req => Unguarded.onLoad req g1) s) in *.
  assert (H2' : In h2 (List.map handle (pending s1)))
    by (rewrite A5; now apply dropRequest_other).
  destruct (unguarded_success s1 _ h2 g2 A1 H2') as (B1 & B2 & B3 & B4 & B5).
  set (t := resolve h2 (fun req => Unguarded.onLoad req g2) s1) in *.
  assert (T1 : In h1 (attached t)).
  { unfold attached. rewrite B1, !attachedPlanets_sceneAdd.
    apply in_or_app. left. apply removeFirst_other; [congruence|].
    apply in_or_app. right. now left. }
  assert (Hh1 : heap t h1 = centerAndFit g1).
  { rewrite B3, A3. unfold heapStore. rewrite Nat.eqb_refl.
    apply Nat.eqb_neq in Hne. now rewrite Hne. }
  assert (Hh2 : heap t h2 = centerAndFit g2).
  { rewrite B3. unfold heapStore. now rewrite Nat.eqb_refl. }
  cbv zeta. split; [exact T1|]. split.
  { unfold attached. rewrite B1, attachedPlanets_sceneAdd.
    apply in_or_app. right. now left. }
  split; [exact B2|]. split; [exact Hh1|]. split; [exact Hh2|].
  split; [congruence|].
  unfold Unguarded.loadPlanet. rewrite B1. unfold removePrevious. rewrite B2.
  simpl heap. rewrite Hh2.
  destruct (disposeObject3D (centerAndFit g2)) as [log [|]] eqn:D; simpl.
  - split; [|congruence].
    unfold attached; simpl. rewrite B1; simpl.
    rewrite attachedPlanets_sceneRemove. apply removeFirst_other; [congruence|].
    unfold attached in T1. now rewrite B1 in T1.
  - split; [|congruence].
    unfold attached; simpl. rewrite B1; simpl.
    rewrite attachedPlanets_sceneRemove. apply removeFirst_other; [congruence|].
    unfold attached in T1. now rewrite B1 in T1.
Qed.

Lemma unguarded_orphans_first_witness :
  let s := Unguarded.run noRotation initialViewer
             [Mount 800 600; RequestLoad "mars.glb"]%string in
  let t := Unguarded.run noRotation s [LoadSuccess 0 ringed; LoadSuccess 1 offCentre] in
  let t' := Unguarded.loadPlanet "venus.glb" t in
  In 0%nat (attached t) /\ In 1%nat (attached t) /\ In 0%nat (attached t').
Proof.
  pose proof (unguarded_orphans_first noRotation
                (Unguarded.run noRotation initialViewer
                   [Mount 800 600; RequestLoad "mars.glb"]%string)
                [DirectionalLight; AmbientLight] 0%nat 1%nat ringed offCentre
                "venus.glb"%string eq_refl) as H.
  cbv zeta in H.
  destruct H as (H1 & H2 & _ & _ & _ & _ & H7 & _).
  - discriminate.
  - simpl. auto.
  - simpl. auto.
  - cbv zeta. split; [exact H1|]. split; [exact H2 | exact H7].
Defined.

(** ** The menu *)

Lemma find_never : forall (A : Type) (p : A -> bool) l,
  (forall x, In x l -> p x = false) -> find p l = None.
Proof.
  intros A p l; induction l as [|a l IH]; intros H; simpl; [reflexivity|].
  rewrite (H a) by now left. apply IH. intros x Hx. apply H. now right.
Qed.

(** X16.  A click on a menu button looks its [data-planet] value up in the
    catalog without regard to case: when the value equals a catalog name up to
    case the click does what [handlePlanetClick] does on that entry (the
    label becomes the catalog's spelling of the name and the entry's file is
    loaded); with any other value, an empty one or none the click changes
    nothing. *)
Theorem menuClick_looks_up : forall planet c,
  (forall p, In p PLANETS -> toLowerCase planet = toLowerCase (fst p) ->
             menuClick (Some planet) c = handlePlanetClick p c) /\
  ((forall p, In p PLANETS -> toLowerCase planet <> toLowerCase (fst p)) ->
   menuClick (Some planet) c = c) /\
  menuClick (Some EmptyString) c = c /\ menuClick None c = c.
Proof.
  intros planet c. split; [|split; [|split; reflexivity]].
  - intros p Hp E. unfold menuClick, handlePlanetClick.
    destruct planet as [|a planet].
    + simpl in Hp.
      repeat (destruct Hp as [<-|Hp]; [discriminate|]). destruct Hp.
    + unfold findPlanet. rewrite E. simpl in Hp.
      repeat (destruct Hp as [<-|Hp]; [reflexivity|]). destruct Hp.
  - intros H. unfold menuClick. destruct planet as [|a planet]; [reflexivity|].
    unfold findPlanet. rewrite find_never; [reflexivity|].
    intros p Hp. apply String.eqb_neq. intros E. apply (H p Hp). now symmetry.
Qed.

Lemma menuClick_looks_up_witness :
  let c := mkComponent (run noRotation initialViewer [Mount 800 600]) "Earth" in
  menuClick (Some "JUPITER"%string) c =
  handlePlanetClick ("Jupiter", "/models/jupiter.glb")%string c.
Proof.
  intros c.
  apply (proj1 (menuClick_looks_up "JUPITER"%string c)).
  - simpl. auto 10.
  - reflexivity.
Defined.

(** ** The mount effect runs once *)

Lemma hostState_step : forall f s e,
  initialized s = true -> resizeListening s = false ->
  hostState (step f s e) = hostState s.
Proof.
  intros f s e Hi Hr. unfold hostState. destruct e; simpl.
  - replace (mount f width height s) with s by (unfold mount; now rewrite Hi).
    reflexivity.
  - replace (cleanup s) with s by (unfold cleanup; now rewrite Hr).
    reflexivity.
  - unfold loadPlanet, removePrevious.
    destruct (sceneRef s); [|reflexivity]. simpl.
    destruct (planetRef s); [|reflexivity]. simpl.
    destruct (disposeObject3D _) as [log [|]]; reflexivity.
  - unfold resolve. destruct (findRequest h (pending s)); [|reflexivity].
    unfold onLoad. simpl.
    destruct (negb _); [reflexivity|].
    destruct (normalize _ _) as [planet n']. simpl.
    unfold attach. simpl. destruct (sceneRef s); reflexivity.
  - unfold resolve. destruct (findRequest h (pending s)); [|reflexivity].
    unfold onError. simpl. destruct (Nat.eqb _ _); reflexivity.
  - replace (if initialized s then animate f s else s) with (animate f s)
      by now rewrite Hi.
    unfold animate, animateBy. destruct (planetRef s); reflexivity.
  - replace (if resizeListening s then handleResize container s else s) with s
      by now rewrite Hr.
    reflexivity.
Qed.

(** X17.  The mount effect initialises the viewer once for good.  After the
    cleanup of an initialised viewer no sequence of events, a new run of the
    mount effect included, brings the canvas or the resize handling back:
    [initializedRef] stays set, so the effect returns at its guard. *)
Theorem mount_runs_once : forall f s es,
  initialized s = true -> resizeListening s = true ->
  hostState (run f (cleanup s) es) = (true, false, false).
Proof.
  intros f s es Hi Hr.
  assert (H0 : hostState (cleanup s) = (true, false, false)).
  { unfold cleanup, hostState. rewrite Hr. simpl.
    destruct (planetRef s); simpl; now rewrite Hi. }
  revert H0. generalize (cleanup s). clear s Hi Hr.
  induction es as [|e es IH]; intros s H0; [exact H0|].
  simpl. apply IH. rewrite hostState_step; [exact H0 | |];
    unfold hostState in H0; congruence.
Qed.

Lemma mount_runs_once_witness :
  hostState (run noRotation initialViewer strictMount) = (true, false, false).
Proof.
  exact (mount_runs_once noRotation (run noRotation initialViewer [Mount 800 600])
           [Mount 800 600] eq_refl eq_refl).
Defined.
